(** * Eraserr: the retention engine of the Radarr and Sonarr clients

    A shallow embedding of [src/clients/sonarr.py] and
    [src/clients/radarr.py].  The JSON payloads the clients receive are
    records whose optional keys are [option] fields, the remote services
    are oracles that answer each request from the history of requests
    made so far, and the candidate dictionary [media_to_delete], which
    the clients mutate in place, lives in the world the computations
    thread through. *)

From stdpp Require Import base decidable option list sorting gmap strings pretty.
From Stdlib Require Import ZArith Lia.

Local Open Scope Z_scope.

(** ** Python values *)

(** [d.get(k, False)] on a key whose value is a boolean. *)
Definition get_bool (o : option bool) : bool := default false o.

(** [d.get(k, 0)] on a key whose value is an integer. *)
Definition get_int (o : option Z) : Z := default 0 o.

(** [str(x)] for [x] an integer or [None]. *)
Definition py_str (o : option Z) : string :=
  match o with
  | Some n => pretty n
  | None => "None"%string
  end.

(** The index at which the slice [l[n:]] starts (and [l[:n]] stops) in a
    list of length [len]: a negative bound counts from the end and is
    clamped at the front, a bound past the end is clamped by [drop] and
    [take] themselves. *)
Definition slice_bound (len : nat) (n : Z) : nat :=
  if decide (0 ≤ n) then Z.to_nat n else Z.to_nat (Z.of_nat len + n).

(** [l[n:]] *)
Definition slice_from {A} (l : list A) (n : Z) : list A :=
  drop (slice_bound (length l) n) l.

(** [l[:n]] *)
Definition slice_to {A} (l : list A) (n : Z) : list A :=
  take (slice_bound (length l) n) l.

(** [sorted(l, key=...)] for a key that is a pair of integers.  Python
    compares tuples lexicographically and its sort is stable; a stable
    sort has one possible result, computed here by insertion. *)
Definition key_leb (a b : Z * Z) : bool :=
  (a.1 <? b.1) || ((a.1 =? b.1) && (a.2 <=? b.2)).

Definition key_le (a b : Z * Z) : Prop :=
  a.1 < b.1 ∨ (a.1 = b.1 ∧ a.2 ≤ b.2).

Fixpoint insert_sorted {A} (key : A → Z * Z) (x : A) (l : list A) : list A :=
  match l with
  | [] => [x]
  | y :: l' =>
      if key_leb (key x) (key y) then x :: y :: l'
      else y :: insert_sorted key x l'
  end.

Definition sorted {A} (key : A → Z * Z) (l : list A) : list A :=
  foldr (insert_sorted key) [] l.

(** [any(x in ys for x in xs)] *)
Definition any_in (xs ys : list Z) : bool :=
  existsb (λ x, bool_decide (x ∈ ys)) xs.

(** ** Remote calls, exceptions and the world *)

Inductive disposition := ExemptSkip | Deleted | Trimmed | NoOp.

(** [requests.exceptions.RequestException], the one exception the
    clients raise and catch. *)
Inductive exn := RequestException.

Inductive outcome (A : Type) :=
| Ret (a : A)
| Raise (e : exn).
Arguments Ret {A} a.
Arguments Raise {A} e.

(** What a run does to its environment, in order: a request to the
    service, or a pause of the retry decorator. *)
Inductive effect (call : Type) :=
| Request (c : call)
| Sleep (seconds : Z).
Arguments Request {call} c.
Arguments Sleep {call} seconds.

(** The world of a run.  [w_dict] is the dictionary object
    [media_to_delete] that caller and client share; [w_effects] and
    [w_log] grow at the end.  [w_path] is a ghost record: for each
    library item that is a candidate, the branch of the loop body that
    it took, under the name the specification gives that branch. *)
Record world (call line : Type) := World {
  w_dict : gmap string string;
  w_effects : list (effect call);
  w_log : list line;
  w_path : list (string * disposition)
}.
Arguments World {call line}.
Arguments w_dict {call line}.
Arguments w_effects {call line}.
Arguments w_log {call line}.
Arguments w_path {call line}.

Section Monad.
Context {call line : Type}.

Definition M (A : Type) : Type :=
  world call line → outcome A * world call line.

Definition ret {A} (a : A) : M A := λ w, (Ret a, w).

Definition raise {A} (e : exn) : M A := λ w, (Raise e, w).

Definition bind {A B} (m : M A) (k : A → M B) : M B :=
  λ w, match m w with
       | (Ret a, w') => k a w'
       | (Raise e, w') => (Raise e, w')
       end.

(** [try: m except RequestException: h] *)
Definition try_except {A} (m : M A) (h : exn → M A) : M A :=
  λ w, match m w with
       | (Ret a, w') => (Ret a, w')
       | (Raise e, w') => h e w'
       end.

Definition performed (f : effect call) (w : world call line) : world call line :=
  World (w_dict w) (w_effects w ++ [f]) (w_log w) (w_path w).

Definition logged (l : line) (w : world call line) : world call line :=
  World (w_dict w) (w_effects w) (w_log w ++ [l]) (w_path w).

Definition visited (key : string) (d : disposition) (w : world call line)
    : world call line :=
  World (w_dict w) (w_effects w) (w_log w) (w_path w ++ [(key, d)]).

Definition popped (key : string) (w : world call line) : world call line :=
  World (delete key (w_dict w)) (w_effects w) (w_log w) (w_path w).

Definition perform (f : effect call) : M unit := λ w, (Ret tt, performed f w).

Definition history : M (list (effect call)) := λ w, (Ret (w_effects w), w).

(** [logger.info(...)] and [logger.error(...)] *)
Definition logger (l : line) : M unit := λ w, (Ret tt, logged l w).

(** The ghost step that records the branch taken. *)
Definition visit (key : string) (d : disposition) : M unit :=
  λ w, (Ret tt, visited key d w).

(** [key in media_to_delete.keys()] *)
Definition dict_has (key : string) : M bool :=
  λ w, (Ret (bool_decide (is_Some (w_dict w !! key))), w).

(** [media_to_delete.pop(key)], called only on a key that is present. *)
Definition dict_pop (key : string) : M unit := λ w, (Ret tt, popped key w).

(** [len(media_to_delete)] *)
Definition dict_len : M nat := λ w, (Ret (size (w_dict w)), w).

Definition dict_get : M (gmap string string) := λ w, (Ret (w_dict w), w).

(** Modelled from the spec: the decorator [retry] that [radarr.py]
    imports from the package of that name, whose code is not part of
    the repository.  A bounded retry of the whole function it wraps, a
    fixed number of attempts with a fixed delay, on any exception: run
    [f]; when it raises and no try is left, raise the same; else sleep
    [delay] seconds and run [f] again.  [more] counts the tries left
    after the current one. *)
Fixpoint retry_internal (more : nat) (delay : Z) {A} (f : M A) : M A :=
  try_except f (λ e,
    match more with
    | O => raise e
    | S n => bind (perform (Sleep delay)) (λ _, retry_internal n delay f)
    end).

(** [for x in l: acc = body(acc, x)] *)
Fixpoint for_each {A B} (body : B → A → M B) (acc : B) (l : list A) : M B :=
  match l with
  | [] => ret acc
  | x :: l' => bind (body acc x) (λ acc', for_each body acc' l')
  end.

(** One request: it is recorded, and the service answers it from the
    requests made before it; no answer stands for a status code other
    than the expected one, on which every request method of the
    clients raises. *)
Definition request {A} (c : call)
    (answer : list (effect call) → option A) : M A :=
  bind history (λ h,
  bind (perform (Request c)) (λ _,
  match answer h with
  | Some a => ret a
  | None => raise RequestException
  end)).

Definition accepted (b : bool) : option unit :=
  if b then Some tt else None.

Definition retry (tries : positive) (delay : Z) {A} (f : M A) : M A :=
  retry_internal (Pos.to_nat tries - 1) delay f.
End Monad.

Notation "x <~ m ;; k" := (bind m (λ x, k))
  (at level 100, m at next level, right associativity, only parsing).
Notation "m ;;; k" := (bind m (λ _, k))
  (at level 100, right associativity, only parsing).

(** An entry of the tag catalogue, [{"id": ..., "label": ...}]. *)
Record tag := Tag { tag_id : Z; tag_label : string }.

(** [[tag["id"] for tag in tags if tag["label"] in tag_names]] *)
Definition exempt_ids_of (tag_names : list string) (tags : list tag) : list Z :=
  tag_id <$> filter (λ t, tag_label t ∈ tag_names) tags.

(** ** The Sonarr client, [src/clients/sonarr.py] *)

Module Sonarr.

(** An episode as [/episode] lists it.  The client reads
    ["seasonNumber"] and ["episodeNumber"] by subscript, so they are
    there, and every other key with [.get], so it may be absent. *)
Record episode := Episode {
  episode_id : option Z;
  seasonNumber : Z;
  episodeNumber : Z;
  episode_monitored : option bool;
  hasFile : option bool;
  episodeFileId : option Z
}.

(** [episodeCount] is the key of that name under ["statistics"]; it is
    absent when either key is. *)
Record season := Season {
  season_number : option Z;
  season_monitored : option bool;
  episodeCount : option Z
}.

(** [sizeOnDisk] is the key of that name under ["statistics"]. *)
Record series := Series {
  series_id : option Z;
  tvdbId : option Z;
  series_title : option string;
  series_tags : list Z;
  ended : option bool;
  sizeOnDisk : option Z;
  seasons : list season
}.

Record config := Config {
  monitor_continuing_series : bool;
  exempt_tag_names : list string;
  episodes_to_load : Z
}.

Inductive call :=
| GetSeries
| GetTag
| GetEpisode (seriesId : option Z)
| PutSeries (payload : series)
| PutEpisodeMonitor (episodeIds : list (option Z)) (monitored : bool)
| DeleteSeries (media_id : option Z)
| DeleteEpisodeFileBulk (episodeFileIds : list (option Z)).

Inductive line :=
| SkippingExempt (title : option string)
| WouldHaveDeleted (title : option string) (freed : Z)
| DeletedFreed (title : option string) (freed : Z)
| FailedToDelete (title : option string)
| WouldHaveUnmonitored (title : option string)
| Unmonitored (title : option string)
| FailedToUnmonitor (title : option string)
| WouldHaveTotalFreed (total : Z)
| TotalFreed (total : Z).

(** The Sonarr service: what it answers to each request, given the
    requests and pauses before it. *)
Record service := Service {
  get_series : list (effect call) → option (list series);
  get_tag : list (effect call) → option (list tag);
  get_episode : list (effect call) → option Z → option (list episode);
  put_series : list (effect call) → series → option series;
  put_episode_monitor : list (effect call) → list (option Z) → bool → bool;
  delete_series : list (effect call) → option Z → bool;
  delete_episode_file_bulk : list (effect call) → list (option Z) → bool
}.

Definition is_mutating (f : effect call) : bool :=
  match f with
  | Request (PutSeries _) | Request (PutEpisodeMonitor _ _)
  | Request (DeleteSeries _) | Request (DeleteEpisodeFileBulk _) => true
  | _ => false
  end.

Definition episode_key (e : episode) : Z * Z :=
  (seasonNumber e, episodeNumber e).

(** Lines 111 and 112 of [__handle_continuing_series]. *)
Definition filtered_episodes (episodes : list episode) : list episode :=
  filter (λ e, seasonNumber e ≠ 0) episodes.

Definition sorted_episodes (episodes : list episode) : list episode :=
  sorted episode_key (filtered_episodes episodes).

(** Line 113: [sorted_episodes[episodes_to_load:]]. *)
Definition episodes_to_unload (episodes : list episode) (n : Z) : list episode :=
  slice_from (sorted_episodes episodes) n.

(** The episodes the slice of line 113 leaves out,
    [sorted_episodes[:episodes_to_load]]; the source does not name
    them. *)
Definition episodes_to_keep (episodes : list episode) (n : Z) : list episode :=
  slice_to (sorted_episodes episodes) n.

Definition episode_le (a b : episode) : Prop :=
  key_le (episode_key a) (episode_key b).

(** The partition the Episode Window Selector is specified to make of
    [episodes] for the retain count [n].  A position in a list is a
    natural number, so the positions [i] with [n ≤ i] are those from
    [Z.to_nat n] on. *)
Definition window_partition (episodes : list episode) (n : Z) : Prop :=
  let retain := episodes_to_keep episodes n in
  let trim := episodes_to_unload episodes n in
  let ordered := sorted_episodes episodes in
  ordered ≡ₚ filter (λ e, seasonNumber e ≠ 0) episodes ∧
  StronglySorted episode_le ordered ∧
  Z.of_nat (length retain) = Z.min n (Z.of_nat (length ordered)) ∧
  retain = take (length retain) ordered ∧
  trim = drop (Z.to_nat n) ordered ∧
  retain ++ trim = ordered.

(** The body of the loop of lines 118 to 122 on the pair
    [(unmonitor_episode_ids, delete_episode_file_ids)]. *)
Definition collect (acc : list (option Z) * list (option Z)) (e : episode)
    : list (option Z) * list (option Z) :=
  (if get_bool (episode_monitored e) then acc.1 ++ [episode_id e] else acc.1,
   if get_bool (hasFile e) && negb (bool_decide (episodeFileId e ∈ acc.2))
   then acc.2 ++ [episodeFileId e] else acc.2).

Definition unmonitor_episode_ids (unload : list episode) : list (option Z) :=
  (foldl collect ([], []) unload).1.

Definition delete_episode_file_ids (unload : list episode) : list (option Z) :=
  (foldl collect ([], []) unload).2.

(** The body of the loop of [__unmonitor_empty_seasons]. *)
Definition unmonitor_empty_season (s : season) : season :=
  if 0 <? get_int (episodeCount s) then s
  else if get_bool (season_monitored s)
       then Season (season_number s) (Some false) (episodeCount s)
       else s.

Definition unmonitor_empty_seasons (s : series) : series :=
  Series (series_id s) (tvdbId s) (series_title s) (series_tags s) (ended s)
         (sizeOnDisk s) (unmonitor_empty_season <$> seasons s).

Section Client.
Variable svc : service.
Variable cfg : config.

Local Abbreviation M := (@M call line).

Definition get_media : M (list series) :=
  request GetSeries (get_series svc).

Definition get_exempt_tag_ids (tag_names : list string) : M (list Z) :=
  tags <~ request GetTag (get_tag svc) ;;
  ret (exempt_ids_of tag_names tags).

Definition get_media_episodes (media_id : option Z) : M (list episode) :=
  request (GetEpisode media_id) (λ h, get_episode svc h media_id).

Definition put_media (s : series) : M series :=
  request (PutSeries s) (λ h, put_series svc h s).

Definition monitor_media_episodes (episode_ids : list (option Z))
    (monitored : bool) : M unit :=
  request (PutEpisodeMonitor episode_ids monitored)
          (λ h, accepted (put_episode_monitor svc h episode_ids monitored)).

Definition delete_media (media_id : option Z) : M unit :=
  request (DeleteSeries media_id) (λ h, accepted (delete_series svc h media_id)).

Definition delete_media_episodes (episode_ids : list (option Z)) : M unit :=
  request (DeleteEpisodeFileBulk episode_ids)
          (λ h, accepted (delete_episode_file_bulk svc h episode_ids)).

Definition handle_ended_series (s : series) (dry_run : bool) : M Z :=
  let size_on_disk := get_int (sizeOnDisk s) in
  if dry_run then
    logger (WouldHaveDeleted (series_title s) size_on_disk) ;;;
    ret size_on_disk
  else
    try_except
      (delete_media (series_id s) ;;;
       logger (DeletedFreed (series_title s) size_on_disk))
      (λ err, logger (FailedToDelete (series_title s))) ;;;
    ret (get_int (sizeOnDisk s)).

Definition handle_continuing_series (s : series) (dry_run : bool) : M Z :=
  episodes <~ get_media_episodes (series_id s) ;;
  let unload := episodes_to_unload episodes (episodes_to_load cfg) in
  let unmonitor_ids := unmonitor_episode_ids unload in
  let delete_ids := delete_episode_file_ids unload in
  if dry_run then
    logger (WouldHaveUnmonitored (series_title s)) ;;;
    ret 0
  else
    try_except
      (match unmonitor_ids with
       | [] => ret tt
       | _ :: _ =>
           monitor_media_episodes unmonitor_ids false ;;;
           logger (Unmonitored (series_title s))
       end ;;;
       match delete_ids with
       | [] => ret 0
       | _ :: _ =>
           delete_media_episodes delete_ids ;;;
           let original_size_on_disk := get_int (sizeOnDisk s) in
           updated <~ put_media (unmonitor_empty_seasons s) ;;
           ret (original_size_on_disk - get_int (sizeOnDisk updated))
       end)
      (λ err, logger (FailedToUnmonitor (series_title s)) ;;; ret 0).

(** The body of the loop of [get_and_delete_media], from the running
    [total_size] to its next value. *)
Definition process_series (exempt_tag_ids : list Z) (dry_run : bool)
    (total_size : Z) (s : series) : M Z :=
  let key := py_str (tvdbId s) in
  present <~ dict_has key ;;
  if negb present then ret total_size
  else if any_in (series_tags s) exempt_tag_ids then
    dict_pop key ;;;
    visit key ExemptSkip ;;;
    logger (SkippingExempt (series_title s)) ;;;
    ret total_size
  else
    match series_id s with
    | Some _ =>
        if negb (monitor_continuing_series cfg) || get_bool (ended s) then
          visit key Deleted ;;;
          size <~ handle_ended_series s dry_run ;;
          ret (total_size + size)
        else
          visit key Trimmed ;;;
          size <~ handle_continuing_series s dry_run ;;
          ret (total_size + size)
    | None => visit key NoOp ;;; ret total_size
    end.

Definition get_and_delete_media (dry_run : bool) : M (gmap string string) :=
  media <~ get_media ;;
  exempt_tag_ids <~ get_exempt_tag_ids (exempt_tag_names cfg) ;;
  total_size <~ for_each (process_series exempt_tag_ids dry_run) 0 media ;;
  (if dry_run then logger (WouldHaveTotalFreed total_size)
   else if 0 <? total_size then logger (TotalFreed total_size)
   else ret tt) ;;;
  dict_get.

(** The body of the loop of [get_and_delete_media_episodes]. *)
Definition skip_exempt (exempt_tag_ids : list Z) (_ : unit) (s : series)
    : M unit :=
  let key := py_str (tvdbId s) in
  present <~ dict_has key ;;
  if negb present then ret tt
  else if any_in (series_tags s) exempt_tag_ids then
    dict_pop key ;;;
    logger (SkippingExempt (series_title s)) ;;;
    ret tt
  else ret tt.

(** [get_and_delete_media_episodes], which returns [None]. *)
Definition get_and_delete_media_episodes (dry_run : bool) : M unit :=
  media <~ get_media ;;
  exempt_tag_ids <~ get_exempt_tag_ids (exempt_tag_names cfg) ;;
  for_each (skip_exempt exempt_tag_ids) tt media ;;;
  ret tt.
End Client.
End Sonarr.

(** ** The Radarr client, [src/clients/radarr.py] *)

Module Radarr.

Record movie := Movie {
  movie_id : option Z;
  tmdbId : option Z;
  movie_title : option string;
  movie_tags : list Z;
  sizeOnDisk : option Z
}.

Record config := Config {
  exempt_tag_names : list string
}.

Inductive call :=
| GetMovie
| GetTag
| DeleteMovie (media_id : option Z).

Inductive line :=
| SkippingExempt (title : option string)
| WouldHaveDeleted (title : option string) (freed : Z)
| DeletedFreed (title : option string) (freed : Z)
| FailedToDelete (title : option string)
| DryRunSummary (movies eligible remaining exempt : nat) (total : Z)
| Summary (movies eligible remaining exempt : nat) (total : Z).

Record service := Service {
  get_movie : list (effect call) → option (list movie);
  get_tag : list (effect call) → option (list tag);
  delete_movie : list (effect call) → option Z → bool
}.

Definition is_mutating (f : effect call) : bool :=
  match f with
  | Request (DeleteMovie _) => true
  | _ => false
  end.

Section Client.
Variable svc : service.
Variable cfg : config.

Local Abbreviation M := (@M call line).

Definition get_media : M (list movie) :=
  request GetMovie (get_movie svc).

Definition get_exempt_tag_ids (tag_names : list string) : M (list Z) :=
  tags <~ request GetTag (get_tag svc) ;;
  ret (exempt_ids_of tag_names tags).

Definition delete_media (media_id : option Z) : M unit :=
  request (DeleteMovie media_id) (λ h, accepted (delete_movie svc h media_id)).

(** The body of the loop of [get_and_delete_media] on the pair
    [(exempt_count, total_size)]. *)
Definition process_movie (exempt_tag_ids : list Z) (dry_run : bool)
    (acc : nat * Z) (m : movie) : M (nat * Z) :=
  let key := py_str (tmdbId m) in
  present <~ dict_has key ;;
  if negb present then ret acc
  else if any_in (movie_tags m) exempt_tag_ids then
    dict_pop key ;;;
    visit key ExemptSkip ;;;
    logger (SkippingExempt (movie_title m)) ;;;
    ret (S acc.1, acc.2)
  else
    match movie_id m with
    | Some _ =>
        visit key Deleted ;;;
        let total_size := acc.2 + get_int (sizeOnDisk m) in
        if dry_run then
          logger (WouldHaveDeleted (movie_title m) (get_int (sizeOnDisk m))) ;;;
          ret (acc.1, total_size)
        else
          try_except
            (delete_media (movie_id m) ;;;
             logger (DeletedFreed (movie_title m) (get_int (sizeOnDisk m))))
            (λ err, logger (FailedToDelete (movie_title m))) ;;;
          ret (acc.1, total_size)
    | None => visit key NoOp ;;; ret acc
    end.

(** The function under the decorator. *)
Definition get_and_delete_media_once (dry_run : bool) : M (gmap string string) :=
  media <~ get_media ;;
  exempt_tag_ids <~ get_exempt_tag_ids (exempt_tag_names cfg) ;;
  original_deletion_count <~ dict_len ;;
  acc <~ for_each (process_movie exempt_tag_ids dry_run) (O, 0) media ;;
  remaining <~ dict_len ;;
  (if dry_run
   then logger (DryRunSummary (length media) original_deletion_count
                              remaining acc.1 acc.2)
   else logger (Summary (length media) original_deletion_count
                        remaining acc.1 acc.2)) ;;;
  dict_get.

(** [@retry(tries=3, delay=5)] *)
Definition get_and_delete_media (dry_run : bool) : M (gmap string string) :=
  retry 3 5 (get_and_delete_media_once dry_run).
End Client.
End Radarr.

(** ** The candidate mapping after a run *)

(** The mapping [d] with the keys in [keys] removed. *)
Definition without (keys : list string) (d : gmap string string)
    : gmap string string :=
  filter (λ kv, kv.1 ∉ keys) d.

(** The keys, as the clients compute them, of the listed items that
    carry an exempt tag. *)
Definition exempt_series_keys (ex : list Z) (media : list Sonarr.series)
    : list string :=
  (λ s, py_str (Sonarr.tvdbId s))
    <$> filter (λ s, any_in (Sonarr.series_tags s) ex = true) media.

Definition exempt_movie_keys (ex : list Z) (media : list Radarr.movie)
    : list string :=
  (λ m, py_str (Radarr.tmdbId m))
    <$> filter (λ m, any_in (Radarr.movie_tags m) ex = true) media.

(** A service whose three listings are the same whenever they are asked
    for: the snapshot a run works on. *)
Definition sonarr_snapshot (svc : Sonarr.service)
    (media : option (list Sonarr.series)) (tags : option (list tag))
    (episodes : option Z → option (list Sonarr.episode)) : Prop :=
  ∀ h, Sonarr.get_series svc h = media ∧ Sonarr.get_tag svc h = tags ∧
       ∀ id, Sonarr.get_episode svc h id = episodes id.

Definition radarr_snapshot (svc : Radarr.service)
    (media : option (list Radarr.movie)) (tags : option (list tag)) : Prop :=
  ∀ h, Radarr.get_movie svc h = media ∧ Radarr.get_tag svc h = tags.

(** ** The requests of a trim *)

(** The requests a live trim of [s] makes after it fetched the episodes,
    in the order of lines 131 to 138, when none is refused: [unload] is
    the list of line 113. *)
Definition trim_plan (s : Sonarr.series) (unload : list Sonarr.episode)
    : list (effect Sonarr.call) :=
  match Sonarr.unmonitor_episode_ids unload with
  | [] => []
  | ids => [Request (Sonarr.PutEpisodeMonitor ids false)]
  end ++
  match Sonarr.delete_episode_file_ids unload with
  | [] => []
  | ids => [Request (Sonarr.DeleteEpisodeFileBulk ids);
            Request (Sonarr.PutSeries (Sonarr.unmonitor_empty_seasons s))]
  end.

(** ** The retain window *)

(** [keep] and [unload] are the retained and the trimmed part of
    [episodes] for the retain count [n].  Put one after the other they
    are the episodes outside season 0 in ascending order of (season,
    episode); [keep] holds the first [n] of them, or all of them when
    there are fewer; a negative count is read as Python reads it, from
    the end, so that [unload] holds the last [-n].  Neither the sort of
    line 112 nor the slice of line 113 is named here. *)
Definition retain_window (episodes : list Sonarr.episode) (n : Z)
    (keep unload : list Sonarr.episode) : Prop :=
  keep ++ unload ≡ₚ filter (λ e, Sonarr.seasonNumber e ≠ 0) episodes ∧
  StronglySorted Sonarr.episode_le (keep ++ unload) ∧
  (0 ≤ n →
   Z.of_nat (length keep) = Z.min n (Z.of_nat (length (keep ++ unload)))) ∧
  (n < 0 →
   Z.of_nat (length unload) = Z.min (- n) (Z.of_nat (length (keep ++ unload)))).

(** The ids of the episodes of [unload] that read monitored, one per
    episode, in the order of [unload]. *)
Definition monitored_ids (unload : list Sonarr.episode) : list (option Z) :=
  Sonarr.episode_id
    <$> filter (λ e, get_bool (Sonarr.episode_monitored e) = true) unload.

(** [ids] holds, once each, the file ids of the episodes of [unload]
    that have a file. *)
Definition file_ids_of (unload : list Sonarr.episode) (ids : list (option Z))
    : Prop :=
  NoDup ids ∧
  ∀ x, x ∈ ids ↔ ∃ e, e ∈ unload ∧ get_bool (Sonarr.hasFile e) = true
                      ∧ Sonarr.episodeFileId e = x.

(** What the requests [new] of the turn of a continuing series [s] in
    the world [w] are to be.  None deletes a series.  A request to
    unmonitor comes straight after the episode listing and names the
    monitored episodes past the retain window of the listed episodes.
    A request to delete files names the files of the episodes past the
    retain window; before it come the listing and, when any of those
    episodes reads monitored, the unmonitor request, and no unmonitor
    request comes after it. *)
Definition trims_past_window (svc : Sonarr.service) (cfg : Sonarr.config)
    (s : Sonarr.series) (w : world Sonarr.call Sonarr.line)
    (new : list (effect Sonarr.call)) : Prop :=
  (∀ i, Request (Sonarr.DeleteSeries i) ∉ new) ∧
  (∀ pre ids monitored post,
     new = pre ++ Request (Sonarr.PutEpisodeMonitor ids monitored) :: post →
     ∃ episodes keep unload,
       Sonarr.get_episode svc (w_effects w) (Sonarr.series_id s) = Some episodes ∧
       retain_window episodes (Sonarr.episodes_to_load cfg) keep unload ∧
       monitored = false ∧
       ids = monitored_ids unload ∧
       pre = [Request (Sonarr.GetEpisode (Sonarr.series_id s))]) ∧
  (∀ pre ids post,
     new = pre ++ Request (Sonarr.DeleteEpisodeFileBulk ids) :: post →
     ∃ episodes keep unload,
       Sonarr.get_episode svc (w_effects w) (Sonarr.series_id s) = Some episodes ∧
       retain_window episodes (Sonarr.episodes_to_load cfg) keep unload ∧
       file_ids_of unload ids ∧
       pre = Request (Sonarr.GetEpisode (Sonarr.series_id s))
             :: match monitored_ids unload with
                | [] => []
                | mon => [Request (Sonarr.PutEpisodeMonitor mon false)]
                end ∧
       ∀ ids' monitored, Request (Sonarr.PutEpisodeMonitor ids' monitored) ∉ post).

(** The reading of "only episode files outside the retain window are
    submitted for deletion" under which the files of the retained
    episodes stay: no request of [new] to delete files names the file
    of an episode inside the retain window. *)
Definition spares_retained_files (svc : Sonarr.service) (cfg : Sonarr.config)
    (s : Sonarr.series) (w : world Sonarr.call Sonarr.line)
    (new : list (effect Sonarr.call)) : Prop :=
  ∀ pre ids post episodes keep unload,
    new = pre ++ Request (Sonarr.DeleteEpisodeFileBulk ids) :: post →
    Sonarr.get_episode svc (w_effects w) (Sonarr.series_id s) = Some episodes →
    retain_window episodes (Sonarr.episodes_to_load cfg) keep unload →
    ∀ e, e ∈ keep → get_bool (Sonarr.hasFile e) = true →
         Sonarr.episodeFileId e ∉ ids.

(** ** Counting the executions of a batch *)

(** Each execution of a batch function opens with its listing request,
    and makes it once. *)
Definition is_series_listing (f : effect Sonarr.call) : bool :=
  match f with
  | Request Sonarr.GetSeries => true
  | _ => false
  end.

Definition is_movie_listing (f : effect Radarr.call) : bool :=
  match f with
  | Request Radarr.GetMovie => true
  | _ => false
  end.

Definition is_sleep {call} (f : effect call) : bool :=
  match f with
  | Sleep _ => true
  | _ => false
  end.

Definition count {A} (p : A → bool) (l : list A) : nat :=
  length (filter (λ x, p x = true) l).

(** ** Sizes reported by a dry run *)




(** ** Requests an item warrants *)




(** ** Predicates on runs *)

Section Runs.
Context {call line : Type}.
Local Abbreviation M := (@M call line).

(** [m] leaves the dictionary and the path as they are. *)
Definition quiet {A} (m : M A) : Prop :=
  ∀ w, w_dict (m w).2 = w_dict w ∧ w_path (m w).2 = w_path w.

(** Every effect of [m] satisfies [P]. *)
Definition emits (P : effect call → Prop) {A} (m : M A) : Prop :=
  ∀ w, ∃ new, w_effects (m w).2 = w_effects w ++ new ∧ Forall P new.

(** [m] never raises. *)
Definition returns {A} (m : M A) : Prop :=
  ∀ w, ∃ a, (m w).1 = Ret a.

(** Two worlds with the same dictionary and the same path. *)
Definition same_course (w1 w2 : world call line) : Prop :=
  w_dict w1 = w_dict w2 ∧ w_path w1 = w_path w2.

(** Two results that both return, with values related by [R], or both
    raise, in worlds on the same course. *)
Definition in_step {A B} (R : A → B → Prop)
    (r1 : outcome A * world call line) (r2 : outcome B * world call line) : Prop :=
  same_course r1.2 r2.2 ∧
  match r1.1, r2.1 with
  | Ret a, Ret b => R a b
  | Raise _, Raise _ => True
  | _, _ => False
  end.


(** [m] takes the dictionary from [d] to one that [R] relates to [d]. *)
Definition moves_dict (R : relation (gmap string string)) {A} (m : M A) : Prop :=
  ∀ w, R (w_dict w) (w_dict (m w).2).

(** What [m] returns, when it returns, satisfies [Q]. *)
Definition yields {A} (Q : A → Prop) (m : M A) : Prop :=
  ∀ w a, (m w).1 = Ret a → Q a.
End Runs.

(** ** A small library *)

Module Examples.
Local Open Scope string_scope.

Definition episode_at (s e : Z) : Sonarr.episode :=
  Sonarr.Episode (Some (100 * s + e)) s e (Some true) (Some true)
                 (Some (100 * s + e)).

Definition keep : tag := Tag 7 "keep".

Definition protected_show : Sonarr.series :=
  Sonarr.Series (Some 1) (Some 101) (Some "Protected") [7] (Some true)
                (Some 500) [].

Definition ended_show : Sonarr.series :=
  Sonarr.Series (Some 2) (Some 102) (Some "Ended") [] (Some true)
                (Some 1000) [].

Definition running_show : Sonarr.series :=
  Sonarr.Series (Some 3) (Some 103) (Some "Running") [] (Some false)
                (Some 3000)
                [Sonarr.Season (Some 1) (Some true) (Some 0);
                 Sonarr.Season (Some 2) (Some true) (Some 3)].

Definition running_show_trimmed : Sonarr.series :=
  Sonarr.Series (Some 3) (Some 103) (Some "Running") [] (Some false)
                (Some 1200)
                [Sonarr.Season (Some 1) (Some false) (Some 0);
                 Sonarr.Season (Some 2) (Some true) (Some 3)].

Definition running_episodes : list Sonarr.episode :=
  [Examples.episode_at 2 1; Examples.episode_at 0 1; Examples.episode_at 1 1; Examples.episode_at 2 2].

Definition shows : list Sonarr.series :=
  [protected_show; ended_show; running_show].

Definition sonarr_cfg : Sonarr.config := Sonarr.Config true ["keep"] 1.

(** A Sonarr that accepts every request. *)
Definition sonarr_up : Sonarr.service :=
  Sonarr.Service (λ _, Some shows) (λ _, Some [keep])
                 (λ _ _, Some running_episodes)
                 (λ _ _, Some running_show_trimmed)
                 (λ _ _ _, true) (λ _ _, true) (λ _ _, true).

(** A Sonarr that lists but refuses every change. *)
Definition sonarr_readonly : Sonarr.service :=
  Sonarr.Service (λ _, Some shows) (λ _, Some [keep])
                 (λ _ _, Some running_episodes)
                 (λ _ _, None)
                 (λ _ _ _, false) (λ _ _, false) (λ _ _, false).

(** A Sonarr that refuses to delete a series and accepts the rest. *)
Definition sonarr_keeps_series : Sonarr.service :=
  Sonarr.Service (λ _, Some shows) (λ _, Some [keep])
                 (λ _ _, Some running_episodes)
                 (λ _ _, Some running_show_trimmed)
                 (λ _ _ _, true) (λ _ _, false) (λ _ _, true).

(** A Sonarr that lists everything but the episodes of the series of
    id 3. *)
Definition sonarr_hides_episodes : Sonarr.service :=
  Sonarr.Service (λ _, Some shows) (λ _, Some [keep])
                 (λ _ media_id,
                    if decide (media_id = Some 3) then None
                    else Some running_episodes)
                 (λ _ _, Some running_show_trimmed)
                 (λ _ _ _, true) (λ _ _, true) (λ _ _, true).

(** A Sonarr that unmonitors episodes but refuses to delete files. *)
Definition sonarr_keeps_files : Sonarr.service :=
  Sonarr.Service (λ _, Some shows) (λ _, Some [keep])
                 (λ _ _, Some running_episodes)
                 (λ _ _, Some running_show_trimmed)
                 (λ _ _ _, true) (λ _ _, true) (λ _ _, false).

(** A Sonarr that refuses only the update of a series. *)
Definition sonarr_refuses_update : Sonarr.service :=
  Sonarr.Service (λ _, Some shows) (λ _, Some [keep])
                 (λ _ _, Some running_episodes)
                 (λ _ _, None)
                 (λ _ _ _, true) (λ _ _, true) (λ _ _, true).

(** A running series whose two episodes are one file. *)
Definition double_show : Sonarr.series :=
  Sonarr.Series (Some 4) (Some 104) (Some "Double") [] (Some false)
                (Some 900) [Sonarr.Season (Some 1) (Some true) (Some 2)].

Definition double_first : Sonarr.episode :=
  Sonarr.Episode (Some 101) 1 1 (Some true) (Some true) (Some 7).

Definition double_second : Sonarr.episode :=
  Sonarr.Episode (Some 102) 1 2 (Some true) (Some true) (Some 7).

Definition double_episodes : list Sonarr.episode :=
  [double_first; double_second].

Definition sonarr_double : Sonarr.service :=
  Sonarr.Service (λ _, Some [double_show]) (λ _, Some [keep])
                 (λ _ _, Some double_episodes)
                 (λ _ payload, Some payload)
                 (λ _ _ _, true) (λ _ _, true) (λ _ _, true).

Definition double_start : world Sonarr.call Sonarr.line :=
  World (list_to_map [("104", "Double")]) [] [] [].

(** A Sonarr that answers nothing. *)
Definition sonarr_down : Sonarr.service :=
  Sonarr.Service (λ _, None) (λ _, None) (λ _ _, None) (λ _ _, None)
                 (λ _ _ _, false) (λ _ _, false) (λ _ _, false).

Definition show_candidates : gmap string string :=
  list_to_map [("101", "Protected"); ("102", "Ended"); ("103", "Running")].

Definition sonarr_start : world Sonarr.call Sonarr.line :=
  World show_candidates [] [] [].

Definition protected_movie : Radarr.movie :=
  Radarr.Movie (Some 1) (Some 41) (Some "Protected") [7] (Some 700).

Definition watched_movie : Radarr.movie :=
  Radarr.Movie (Some 2) (Some 42) (Some "Watched") [] (Some 10737418240).

Definition unwatched_movie : Radarr.movie :=
  Radarr.Movie (Some 3) (Some 43) (Some "Unwatched") [] (Some 2048).

Definition movies : list Radarr.movie :=
  [protected_movie; watched_movie; unwatched_movie].

Definition radarr_cfg : Radarr.config := Radarr.Config ["keep"].

Definition radarr_up : Radarr.service :=
  Radarr.Service (λ _, Some movies) (λ _, Some [keep]) (λ _ _, true).

Definition radarr_readonly : Radarr.service :=
  Radarr.Service (λ _, Some movies) (λ _, Some [keep]) (λ _ _, false).

(** A Radarr that refuses to delete the movie of id 2 and deletes the
    others. *)
Definition radarr_keeps_one : Radarr.service :=
  Radarr.Service (λ _, Some movies) (λ _, Some [keep])
                 (λ _ media_id, bool_decide (media_id ≠ Some 2)).

(** A Radarr that answers nothing the first two times it is asked for
    the movies. *)
Definition radarr_waking : Radarr.service :=
  Radarr.Service
    (λ h, if decide (length h < 3)%nat then None else Some movies)
    (λ _, Some [keep]) (λ _ _, true).

Definition radarr_down : Radarr.service :=
  Radarr.Service (λ _, None) (λ _, None) (λ _ _, false).

Definition movie_candidates : gmap string string :=
  list_to_map [("41", "Protected"); ("42", "Watched"); ("43", "Unwatched")].

Definition radarr_start : world Radarr.call Radarr.line :=
  World movie_candidates [] [] [].
End Examples.

(** * Properties *)

(** ** Sorting and slicing *)

Section Sorting.
Context {A : Type} (key : A → Z * Z).

Lemma key_leb_le a b : key_leb a b = true ↔ key_le a b.
Proof. unfold key_leb, key_le. destruct a, b; simpl. lia. Qed.

Lemma key_le_total a b : key_le a b ∨ key_le b a.
Proof. unfold key_le. destruct a, b; simpl. lia. Qed.

Lemma key_le_trans a b c : key_le a b → key_le b c → key_le a c.
Proof. unfold key_le. destruct a, b, c; simpl. lia. Qed.

Lemma insert_sorted_perm x l : insert_sorted key x l ≡ₚ x :: l.
Proof.
  induction l as [|y l IH]; simpl; [done|].
  destruct (key_leb (key x) (key y)); [done|].
  rewrite IH. apply Permutation_swap.
Qed.

Lemma sorted_perm l : sorted key l ≡ₚ l.
Proof.
  induction l as [|x l IH]; simpl; [done|].
  unfold sorted in *. simpl. rewrite insert_sorted_perm. by rewrite IH.
Qed.

Lemma insert_sorted_sorted x l :
  StronglySorted (λ a b, key_le (key a) (key b)) l →
  StronglySorted (λ a b, key_le (key a) (key b)) (insert_sorted key x l).
Proof.
  induction 1 as [|y l Hl IH Hy]; simpl.
  - repeat constructor.
  - destruct (key_leb (key x) (key y)) eqn:E.
    + apply key_leb_le in E. constructor; [by constructor|].
      constructor; [done|].
      eapply Forall_impl; [exact Hy|]. intros z Hz. by eapply key_le_trans.
    + constructor; [done|].
      rewrite insert_sorted_perm. constructor; [|done].
      destruct (key_le_total (key x) (key y)) as [H|H]; [|done].
      apply key_leb_le in H. congruence.
Qed.

Lemma sorted_sorted l :
  StronglySorted (λ a b, key_le (key a) (key b)) (sorted key l).
Proof.
  induction l as [|x l IH]; [constructor|].
  by apply insert_sorted_sorted.
Qed.
End Sorting.

Lemma slice_to_from {A} (l : list A) (n : Z) : slice_to l n ++ slice_from l n = l.
Proof. apply take_drop. Qed.

Lemma slice_from_nonneg {A} (l : list A) (n : Z) :
  0 ≤ n → slice_from l n = drop (Z.to_nat n) l.
Proof. intros H. unfold slice_from, slice_bound. by rewrite decide_True. Qed.

Lemma slice_to_nonneg {A} (l : list A) (n : Z) :
  0 ≤ n → slice_to l n = take (Z.to_nat n) l.
Proof. intros H. unfold slice_to, slice_bound. by rewrite decide_True. Qed.

(** ** The episode window *)

Lemma sorted_episodes_perm episodes :
  Sonarr.sorted_episodes episodes ≡ₚ filter (λ e, Sonarr.seasonNumber e ≠ 0) episodes.
Proof. apply sorted_perm. Qed.

Lemma sorted_episodes_sorted episodes :
  StronglySorted Sonarr.episode_le (Sonarr.sorted_episodes episodes).
Proof. apply (sorted_sorted Sonarr.episode_key). Qed.

(** Whatever the retain count, negative ones too, the two slices split
    the sorted list. *)
Lemma window_split episodes n :
  Sonarr.episodes_to_keep episodes n ++ Sonarr.episodes_to_unload episodes n
  = Sonarr.sorted_episodes episodes.
Proof. apply slice_to_from. Qed.

(** C1, as amended.  For every episode list and every retain count that
    is not negative, the selector drops the season-0 episodes, sorts the
    rest ascending by (season, episode) and splits the sorted list: the
    kept part is its first min(retain_count, N) elements, the part to
    unload is its elements from index retain_count on, and the two
    concatenated are the sorted list, a permutation of the filtered
    input. *)
Theorem window_partition_nonneg episodes n :
  0 ≤ n → Sonarr.window_partition episodes n.
Proof.
  intros Hn. unfold Sonarr.window_partition.
  split; [apply sorted_episodes_perm|].
  split; [apply sorted_episodes_sorted|].
  unfold Sonarr.episodes_to_keep, Sonarr.episodes_to_unload.
  rewrite slice_to_nonneg, slice_from_nonneg by done.
  rewrite length_take.
  split; [lia|]. split; [|split; [done|apply take_drop]].
  destruct (decide (Z.to_nat n ≤ length (Sonarr.sorted_episodes episodes))%nat).
  - by rewrite Nat.min_l.
  - rewrite Nat.min_r by lia. by rewrite !take_ge by lia.
Qed.

Lemma window_partition_nonneg_witness :
  0 ≤ 1 ∧
  Sonarr.window_partition [Examples.episode_at 1 2; Examples.episode_at 0 1; Examples.episode_at 1 1] 1.
Proof.
  split; [lia|].
  apply (window_partition_nonneg [Examples.episode_at 1 2; Examples.episode_at 0 1; Examples.episode_at 1 1] 1).
  lia.
Defined.

(** With the retain count -1 the slice of line 113 is the last element,
    not every element, and what it leaves out has one element, not
    min(-1, 2). *)
Lemma window_partition_negative_count :
  ¬ Sonarr.window_partition [Examples.episode_at 1 1; Examples.episode_at 1 2] (-1).
Proof.
  unfold Sonarr.window_partition. intros (_ & _ & H & _).
  vm_compute in H. discriminate.
Qed.

(** ** The file ids to delete *)

Lemma collect_delete_ids acc unload :
  NoDup acc.2 →
  NoDup (foldl Sonarr.collect acc unload).2 ∧
  ∀ x, x ∈ (foldl Sonarr.collect acc unload).2 ↔
       x ∈ acc.2 ∨ ∃ e, e ∈ unload ∧ get_bool (Sonarr.hasFile e) = true
                        ∧ Sonarr.episodeFileId e = x.
Proof.
  revert acc. induction unload as [|e unload IH]; intros acc Hacc; simpl.
  - split; [done|]. intros x. split; [auto|].
    intros [H|(e & H & _)]; [done|]. by apply elem_of_nil in H.
  - destruct (IH (Sonarr.collect acc e)) as [Hnd Hin].
    { unfold Sonarr.collect; simpl.
      destruct (get_bool (Sonarr.hasFile e)); simpl; [|done].
      case_bool_decide; simpl; [done|].
      apply NoDup_app. split; [done|]. split; [|apply NoDup_singleton].
      intros x Hx Hx'. apply list_elem_of_singleton in Hx'. by subst. }
    split; [done|]. intros x. rewrite Hin. clear Hin Hnd IH.
    unfold Sonarr.collect; simpl.
    destruct (get_bool (Sonarr.hasFile e)) eqn:Hf; simpl.
    + case_bool_decide as Hm; simpl.
      * split.
        -- intros [H|(e' & H & ?)]; [by left|].
           right. exists e'. split; [by right|done].
        -- intros [H|(e' & H & Hf' & Hx)]; [by left|].
           apply elem_of_cons in H as [->|H]; [left; by subst|].
           right. by exists e'.
      * rewrite elem_of_app, list_elem_of_singleton. split.
        -- intros [[H| ->]|(e' & H & ?)]; [by left| |].
           ++ right. exists e. split; [by left|done].
           ++ right. exists e'. split; [by right|done].
        -- intros [H|(e' & H & Hf' & Hx)]; [left; by left|].
           apply elem_of_cons in H as [->|H]; [left; by right|].
           right. by exists e'.
    + split.
      * intros [H|(e' & H & ?)]; [by left|].
        right. exists e'. split; [by right|done].
      * intros [H|(e' & H & Hf' & Hx)]; [by left|].
        apply elem_of_cons in H as [->|H]; [congruence|].
        right. by exists e'.
Qed.

Lemma filter_eq_absent {A} `{EqDecision A} (x : A) (l : list A) :
  x ∉ l → filter (λ y, y = x) l = [].
Proof.
  induction l as [|y l IH]; intros Hx; [done|].
  apply not_elem_of_cons in Hx as [Hne Hx].
  rewrite filter_cons, decide_False by congruence. by apply IH.
Qed.

Lemma NoDup_occurs_once {A} `{EqDecision A} (x : A) (l : list A) :
  NoDup l → x ∈ l → length (filter (λ y, y = x) l) = 1%nat.
Proof.
  induction 1 as [|y l Hy Hl IH]; intros Hx; [by apply elem_of_nil in Hx|].
  rewrite filter_cons. destruct (decide (y = x)) as [->|Hne].
  - by rewrite filter_eq_absent.
  - apply elem_of_cons in Hx as [->|Hx]; [done|]. by apply IH.
Qed.

Lemma delete_episode_file_ids_elem (unload : list Sonarr.episode) x :
  x ∈ Sonarr.delete_episode_file_ids unload ↔
  ∃ e, e ∈ unload ∧ get_bool (Sonarr.hasFile e) = true
       ∧ Sonarr.episodeFileId e = x.
Proof.
  destruct (collect_delete_ids ([], []) unload) as [_ Hin]; [constructor|].
  unfold Sonarr.delete_episode_file_ids. rewrite Hin. simpl.
  split; [|auto]. intros [H|H]; [by apply elem_of_nil in H|done].
Qed.

Lemma collect_unmonitor_ids acc unload :
  (foldl Sonarr.collect acc unload).1
  = acc.1 ++ (Sonarr.episode_id
                <$> filter (λ e, get_bool (Sonarr.episode_monitored e) = true)
                           unload).
Proof.
  revert acc. induction unload as [|e unload IH]; intros acc; simpl.
  - by rewrite app_nil_r.
  - rewrite IH, filter_cons. unfold Sonarr.collect. simpl.
    destruct (get_bool (Sonarr.episode_monitored e)) eqn:E.
    + rewrite decide_True by done. simpl. by rewrite <- (assoc_L (++)).
    + by rewrite decide_False by congruence.
Qed.

Lemma unmonitor_episode_ids_monitored unload :
  Sonarr.unmonitor_episode_ids unload = monitored_ids unload.
Proof. unfold Sonarr.unmonitor_episode_ids. by rewrite collect_unmonitor_ids. Qed.

Lemma delete_episode_file_ids_files unload :
  file_ids_of unload (Sonarr.delete_episode_file_ids unload).
Proof.
  split; [|apply delete_episode_file_ids_elem].
  by destruct (collect_delete_ids ([], []) unload) as [Hnd _]; [constructor|].
Qed.

(** The two slices of the sorted list are the retain window, whatever
    the retain count. *)
Lemma sliced_retain_window episodes n :
  retain_window episodes n (Sonarr.episodes_to_keep episodes n)
    (Sonarr.episodes_to_unload episodes n).
Proof.
  unfold retain_window. rewrite window_split.
  split; [apply sorted_episodes_perm|].
  split; [apply sorted_episodes_sorted|].
  unfold Sonarr.episodes_to_keep, Sonarr.episodes_to_unload,
    slice_to, slice_from, slice_bound.
  split; intros Hn.
  - rewrite decide_True by done. rewrite length_take. lia.
  - rewrite decide_False by lia. rewrite length_drop. lia.
Qed.

(** C6.  The file ids submitted for deletion have no duplicates; an id
    is among them exactly when some episode to unload has a file and
    that file id; and the id of such an episode occurs exactly once,
    however many episodes share it. *)
Theorem delete_episode_file_ids_dedup (unload : list Sonarr.episode) :
  NoDup (Sonarr.delete_episode_file_ids unload) ∧
  (∀ x, x ∈ Sonarr.delete_episode_file_ids unload ↔
        ∃ e, e ∈ unload ∧ get_bool (Sonarr.hasFile e) = true
             ∧ Sonarr.episodeFileId e = x) ∧
  (∀ e, e ∈ unload → get_bool (Sonarr.hasFile e) = true →
        length (filter (λ y, y = Sonarr.episodeFileId e)
                       (Sonarr.delete_episode_file_ids unload)) = 1%nat).
Proof.
  destruct (collect_delete_ids ([], []) unload) as [Hnd _]; [constructor|].
  split; [done|]. split; [apply delete_episode_file_ids_elem|].
  intros e He Hf. apply NoDup_occurs_once; [done|].
  apply delete_episode_file_ids_elem. by exists e.
Qed.

(** ** Running the monad *)

Ltac run_monad :=
  unfold request, bind, ret, raise, try_except, perform, history, logger,
    visit, dict_has, dict_pop, dict_len, dict_get, accepted in *; simpl in *.

Section Frames.
Context {call line : Type}.
Local Abbreviation M := (@M call line).
Local Abbreviation quiet m := (@quiet call line _ m).
Local Abbreviation emits P m := (@emits call line P _ m).

Lemma bind_ret_run {A B} (m : M A) (k : A → M B) w a w' :
  m w = (Ret a, w') → bind m k w = k a w'.
Proof. intros H. unfold bind. by rewrite H. Qed.

Lemma bind_raise_run {A B} (m : M A) (k : A → M B) w e w' :
  m w = (Raise e, w') → bind m k w = (Raise e, w').
Proof. intros H. unfold bind. by rewrite H. Qed.

Lemma quiet_ret {A} (a : A) : quiet (ret a).
Proof. by intros w. Qed.

Lemma quiet_raise {A} e : quiet (@raise call line A e).
Proof. by intros w. Qed.

Lemma quiet_bind {A B} (m : M A) (k : A → M B) :
  quiet m → (∀ a, quiet (k a)) → quiet (bind m k).
Proof.
  intros Hm Hk w. unfold bind. specialize (Hm w).
  destruct (m w) as [[a|e] w']; simpl in *; [|done].
  destruct (Hk a w') as [-> ->]. done.
Qed.

Lemma quiet_try_except {A} (m : M A) h :
  quiet m → (∀ e, quiet (h e)) → quiet (try_except m h).
Proof.
  intros Hm Hh w. unfold try_except. specialize (Hm w).
  destruct (m w) as [[a|e] w']; simpl in *; [done|].
  destruct (Hh e w') as [-> ->]. done.
Qed.

Lemma quiet_perform f : quiet (perform f).
Proof. by intros w. Qed.

Lemma quiet_logger l : quiet (logger l).
Proof. by intros w. Qed.

Lemma quiet_request {A} c (answer : list (effect call) → option A) :
  quiet (request c answer).
Proof. intros w. run_monad. by destruct (answer (w_effects w)). Qed.

Lemma emits_ret P {A} (a : A) : emits P (ret a).
Proof. intros w. exists []. by rewrite app_nil_r. Qed.

Lemma emits_raise P {A} e : emits P (@raise call line A e).
Proof. intros w. exists []. by rewrite app_nil_r. Qed.

Lemma emits_bind P {A B} (m : M A) (k : A → M B) :
  emits P m → (∀ a, emits P (k a)) → emits P (bind m k).
Proof.
  intros Hm Hk w. unfold bind. destruct (Hm w) as (n1 & E1 & F1).
  destruct (m w) as [[a|e] w']; simpl in *; [|by exists n1].
  destruct (Hk a w') as (n2 & E2 & F2).
  exists (n1 ++ n2). rewrite E2, E1, (assoc_L (++)).
  split; [done|by apply Forall_app].
Qed.

Lemma emits_try_except P {A} (m : M A) h :
  emits P m → (∀ e, emits P (h e)) → emits P (try_except m h).
Proof.
  intros Hm Hh w. unfold try_except. destruct (Hm w) as (n1 & E1 & F1).
  destruct (m w) as [[a|e] w']; simpl in *; [by exists n1|].
  destruct (Hh e w') as (n2 & E2 & F2).
  exists (n1 ++ n2). rewrite E2, E1, (assoc_L (++)).
  split; [done|by apply Forall_app].
Qed.

Lemma emits_perform (P : effect call → Prop) f : P f → emits P (perform f).
Proof. intros Hf w. exists [f]. split; [done|by constructor]. Qed.

Lemma emits_logger P l : emits P (logger l).
Proof. intros w. exists []. by rewrite app_nil_r. Qed.

Lemma emits_visit P key d : emits P (visit key d).
Proof. intros w. exists []. by rewrite app_nil_r. Qed.

Lemma emits_dict_has P key : emits P (dict_has key).
Proof. intros w. exists []. by rewrite app_nil_r. Qed.

Lemma emits_dict_pop P key : emits P (dict_pop key).
Proof. intros w. exists []. by rewrite app_nil_r. Qed.

Lemma emits_dict_len P : emits P dict_len.
Proof. intros w. exists []. by rewrite app_nil_r. Qed.

Lemma emits_dict_get P : emits P dict_get.
Proof. intros w. exists []. by rewrite app_nil_r. Qed.

Lemma emits_request (P : effect call → Prop) {A} c
    (answer : list (effect call) → option A) :
  P (Request c) → emits P (request c answer).
Proof.
  intros Hc w. exists [Request c]. run_monad.
  split; [by destruct (answer (w_effects w))|by constructor].
Qed.

Lemma emits_for_each P {A B} (body : B → A → M B) l :
  (∀ acc x, emits P (body acc x)) → ∀ acc, emits P (for_each body acc l).
Proof.
  intros Hb. induction l as [|x l IH]; intros acc; simpl.
  - apply emits_ret.
  - apply emits_bind; [apply Hb|]. intros acc'. apply IH.
Qed.

Lemma emits_weaken (P Q : effect call → Prop) {A} (m : M A) :
  (∀ f, P f → Q f) → emits P m → emits Q m.
Proof.
  intros HPQ Hm w. destruct (Hm w) as (new & E & F).
  exists new. split; [done|]. by eapply Forall_impl.
Qed.

Lemma returns_for_each {A B} (body : B → A → M B) l :
  (∀ acc x, returns (body acc x)) → ∀ acc, returns (for_each body acc l).
Proof.
  intros Hb. induction l as [|x l IH]; intros acc w; simpl.
  - by exists acc.
  - unfold bind. destruct (Hb acc x w) as [acc' E].
    destruct (body acc x w) as [r w']; simpl in *; subst r. apply IH.
Qed.

(** When each turn of a loop takes the dictionary from [d] to
    [step d x], a loop that returns has folded [step] over the list. *)
Lemma for_each_dict {A B} (body : B → A → M B)
    (step : gmap string string → A → gmap string string) l :
  (∀ acc x w, w_dict (body acc x w).2 = step (w_dict w) x) →
  ∀ acc w b, (for_each body acc l w).1 = Ret b →
             w_dict (for_each body acc l w).2 = foldl step (w_dict w) l.
Proof.
  intros Hb. induction l as [|x l IH]; intros acc w b; simpl; [done|].
  unfold bind. specialize (Hb acc x w).
  destruct (body acc x w) as [[acc'|e] w']; simpl in *; [|done].
  intros E. rewrite (IH _ _ _ E). by rewrite Hb.
Qed.
End Frames.

(** ** One series *)

Section SonarrItem.
Variable svc : Sonarr.service.
Variable cfg : Sonarr.config.

Local Abbreviation key s := (py_str (Sonarr.tvdbId s)).

Lemma process_series_absent ex dry t s w :
  w_dict w !! key s = None →
  Sonarr.process_series svc cfg ex dry t s w = (Ret t, w).
Proof.
  intros H. unfold Sonarr.process_series. run_monad.
  rewrite bool_decide_eq_false_2; [done|]. rewrite H. by intros [? ?].
Qed.

Lemma process_series_exempt ex dry t s w :
  is_Some (w_dict w !! key s) →
  any_in (Sonarr.series_tags s) ex = true →
  Sonarr.process_series svc cfg ex dry t s w =
  (Ret t, logged (Sonarr.SkippingExempt (Sonarr.series_title s))
            (visited (key s) ExemptSkip (popped (key s) w))).
Proof.
  intros H E. unfold Sonarr.process_series. run_monad.
  rewrite bool_decide_eq_true_2 by done. simpl. by rewrite E.
Qed.

Lemma process_series_no_id ex dry t s w :
  is_Some (w_dict w !! key s) →
  any_in (Sonarr.series_tags s) ex = false →
  Sonarr.series_id s = None →
  Sonarr.process_series svc cfg ex dry t s w =
  (Ret t, visited (key s) NoOp w).
Proof.
  intros H E I. unfold Sonarr.process_series. run_monad.
  rewrite bool_decide_eq_true_2 by done. simpl. by rewrite E, I.
Qed.

Lemma process_series_ended ex dry t s w :
  is_Some (w_dict w !! key s) →
  any_in (Sonarr.series_tags s) ex = false →
  is_Some (Sonarr.series_id s) →
  negb (Sonarr.monitor_continuing_series cfg) || get_bool (Sonarr.ended s) = true →
  Sonarr.process_series svc cfg ex dry t s w =
  bind (Sonarr.handle_ended_series svc s dry) (λ size, ret (t + size))
       (visited (key s) Deleted w).
Proof.
  intros H E [i I] P. unfold Sonarr.process_series.
  unfold bind at 1, dict_has. simpl.
  rewrite bool_decide_eq_true_2 by done. simpl. by rewrite E, I, P.
Qed.

Lemma process_series_continuing ex dry t s w :
  is_Some (w_dict w !! key s) →
  any_in (Sonarr.series_tags s) ex = false →
  is_Some (Sonarr.series_id s) →
  negb (Sonarr.monitor_continuing_series cfg) || get_bool (Sonarr.ended s) = false →
  Sonarr.process_series svc cfg ex dry t s w =
  bind (Sonarr.handle_continuing_series svc cfg s dry) (λ size, ret (t + size))
       (visited (key s) Trimmed w).
Proof.
  intros H E [i I] P. unfold Sonarr.process_series.
  unfold bind at 1, dict_has. simpl.
  rewrite bool_decide_eq_true_2 by done. simpl. by rewrite E, I, P.
Qed.

Lemma handle_ended_series_dry s w :
  Sonarr.handle_ended_series svc s true w =
  (Ret (get_int (Sonarr.sizeOnDisk s)),
   logged (Sonarr.WouldHaveDeleted (Sonarr.series_title s)
             (get_int (Sonarr.sizeOnDisk s))) w).
Proof. reflexivity. Qed.

Lemma handle_ended_series_live s w :
  Sonarr.handle_ended_series svc s false w =
  (Ret (get_int (Sonarr.sizeOnDisk s)),
   logged (if Sonarr.delete_series svc (w_effects w) (Sonarr.series_id s)
           then Sonarr.DeletedFreed (Sonarr.series_title s)
                  (get_int (Sonarr.sizeOnDisk s))
           else Sonarr.FailedToDelete (Sonarr.series_title s))
          (performed (Request (Sonarr.DeleteSeries (Sonarr.series_id s))) w)).
Proof.
  unfold Sonarr.handle_ended_series, Sonarr.delete_media. run_monad.
  by destruct (Sonarr.delete_series svc (w_effects w) (Sonarr.series_id s)).
Qed.

Lemma handle_continuing_series_unfetched s dry w :
  Sonarr.get_episode svc (w_effects w) (Sonarr.series_id s) = None →
  Sonarr.handle_continuing_series svc cfg s dry w =
  (Raise RequestException,
   performed (Request (Sonarr.GetEpisode (Sonarr.series_id s))) w).
Proof.
  intros H. unfold Sonarr.handle_continuing_series, Sonarr.get_media_episodes.
  run_monad. by rewrite H.
Qed.

Lemma handle_continuing_series_dry s w episodes :
  Sonarr.get_episode svc (w_effects w) (Sonarr.series_id s) = Some episodes →
  Sonarr.handle_continuing_series svc cfg s true w =
  (Ret 0, logged (Sonarr.WouldHaveUnmonitored (Sonarr.series_title s))
            (performed (Request (Sonarr.GetEpisode (Sonarr.series_id s))) w)).
Proof.
  intros H. unfold Sonarr.handle_continuing_series, Sonarr.get_media_episodes.
  run_monad. by rewrite H.
Qed.

(** A live trim returns whenever the episodes could be fetched. *)
Lemma handle_continuing_series_live_returns s w episodes :
  Sonarr.get_episode svc (w_effects w) (Sonarr.series_id s) = Some episodes →
  ∃ z, (Sonarr.handle_continuing_series svc cfg s false w).1 = Ret z.
Proof.
  intros H. unfold Sonarr.handle_continuing_series, Sonarr.get_media_episodes,
    Sonarr.monitor_media_episodes, Sonarr.delete_media_episodes, Sonarr.put_media.
  run_monad. rewrite H.
  repeat (case_match; simpl in *; simplify_eq); eauto.
Qed.

Lemma quiet_handle_ended_series s dry :
  quiet (Sonarr.handle_ended_series svc s dry).
Proof.
  unfold Sonarr.handle_ended_series. destruct dry.
  - apply quiet_bind; [apply quiet_logger|]. intros; apply quiet_ret.
  - apply quiet_bind; [|intros; apply quiet_ret].
    apply quiet_try_except; [|intros; apply quiet_logger].
    apply quiet_bind; [apply quiet_request|intros; apply quiet_logger].
Qed.

Lemma quiet_handle_continuing_series s dry :
  quiet (Sonarr.handle_continuing_series svc cfg s dry).
Proof.
  unfold Sonarr.handle_continuing_series.
  apply quiet_bind; [apply quiet_request|]. intros episodes. destruct dry.
  - apply quiet_bind; [apply quiet_logger|]. intros; apply quiet_ret.
  - apply quiet_try_except.
    + apply quiet_bind.
      * case_match; [apply quiet_ret|].
        apply quiet_bind; [apply quiet_request|intros; apply quiet_logger].
      * intros _. case_match; [apply quiet_ret|].
        apply quiet_bind; [apply quiet_request|]. intros _.
        apply quiet_bind; [apply quiet_request|intros; apply quiet_ret].
    + intros e. apply quiet_bind; [apply quiet_logger|intros; apply quiet_ret].
Qed.
End SonarrItem.

(** ** One movie *)

Section RadarrItem.
Variable svc : Radarr.service.
Variable cfg : Radarr.config.

Local Abbreviation key m := (py_str (Radarr.tmdbId m)).

Lemma process_movie_absent ex dry acc m w :
  w_dict w !! key m = None →
  Radarr.process_movie svc ex dry acc m w = (Ret acc, w).
Proof.
  intros H. unfold Radarr.process_movie. run_monad.
  rewrite bool_decide_eq_false_2; [done|]. rewrite H. by intros [? ?].
Qed.

Lemma process_movie_exempt ex dry acc m w :
  is_Some (w_dict w !! key m) →
  any_in (Radarr.movie_tags m) ex = true →
  Radarr.process_movie svc ex dry acc m w =
  (Ret (S acc.1, acc.2),
   logged (Radarr.SkippingExempt (Radarr.movie_title m))
          (visited (key m) ExemptSkip (popped (key m) w))).
Proof.
  intros H E. unfold Radarr.process_movie. run_monad.
  rewrite bool_decide_eq_true_2 by done. simpl. by rewrite E.
Qed.

Lemma process_movie_no_id ex dry acc m w :
  is_Some (w_dict w !! key m) →
  any_in (Radarr.movie_tags m) ex = false →
  Radarr.movie_id m = None →
  Radarr.process_movie svc ex dry acc m w = (Ret acc, visited (key m) NoOp w).
Proof.
  intros H E I. unfold Radarr.process_movie. run_monad.
  rewrite bool_decide_eq_true_2 by done. simpl. by rewrite E, I.
Qed.

Lemma process_movie_dry ex acc m w :
  is_Some (w_dict w !! key m) →
  any_in (Radarr.movie_tags m) ex = false →
  is_Some (Radarr.movie_id m) →
  Radarr.process_movie svc ex true acc m w =
  (Ret (acc.1, acc.2 + get_int (Radarr.sizeOnDisk m)),
   logged (Radarr.WouldHaveDeleted (Radarr.movie_title m)
             (get_int (Radarr.sizeOnDisk m)))
          (visited (key m) Deleted w)).
Proof.
  intros H E [i I]. unfold Radarr.process_movie. run_monad.
  rewrite bool_decide_eq_true_2 by done. simpl. by rewrite E, I.
Qed.

Lemma process_movie_live ex acc m w :
  is_Some (w_dict w !! key m) →
  any_in (Radarr.movie_tags m) ex = false →
  is_Some (Radarr.movie_id m) →
  Radarr.process_movie svc ex false acc m w =
  (Ret (acc.1, acc.2 + get_int (Radarr.sizeOnDisk m)),
   logged (if Radarr.delete_movie svc (w_effects w) (Radarr.movie_id m)
           then Radarr.DeletedFreed (Radarr.movie_title m)
                  (get_int (Radarr.sizeOnDisk m))
           else Radarr.FailedToDelete (Radarr.movie_title m))
          (performed (Request (Radarr.DeleteMovie (Radarr.movie_id m)))
             (visited (key m) Deleted w))).
Proof.
  intros H E [i I]. unfold Radarr.process_movie, Radarr.delete_media. run_monad.
  rewrite bool_decide_eq_true_2 by done. simpl. rewrite E, I. simpl.
  by destruct (Radarr.delete_movie svc (w_effects w) (Some i)).
Qed.
End RadarrItem.

(** ** Exempt items *)


(** ** The candidate mapping *)

Lemma without_lookup keys d k :
  without keys d !! k = if decide (k ∈ keys) then None else d !! k.
Proof.
  unfold without. rewrite map_lookup_filter.
  destruct (d !! k); simpl; case_decide; try done; case_guard; done.
Qed.

Lemma without_nil d : without [] d = d.
Proof.
  apply map_eq. intros i. rewrite without_lookup.
  rewrite decide_False; [done|apply not_elem_of_nil].
Qed.

Lemma without_cons k keys d : without (k :: keys) d = without keys (delete k d).
Proof.
  apply map_eq. intros i. rewrite !without_lookup, lookup_delete.
  destruct (decide (i ∈ k :: keys)) as [Hin|Hin], (decide (i ∈ keys)),
    (decide (k = i)); try done; exfalso.
  - apply elem_of_cons in Hin as [?|?]; congruence.
  - apply Hin. by right.
  - apply Hin. by right.
  - apply Hin. subst. by left.
Qed.

Lemma foldl_pop_series ex media d :
  foldl (λ d s, if any_in (Sonarr.series_tags s) ex
                then delete (py_str (Sonarr.tvdbId s)) d else d) d media
  = without (exempt_series_keys ex media) d.
Proof.
  revert d. induction media as [|s media IH]; intros d; simpl.
  - by rewrite without_nil.
  - rewrite IH. unfold exempt_series_keys. rewrite filter_cons.
    destruct (any_in (Sonarr.series_tags s) ex) eqn:E.
    + rewrite decide_True by done. simpl. by rewrite without_cons.
    + by rewrite decide_False by done.
Qed.

Lemma foldl_pop_movies ex media d :
  foldl (λ d m, if any_in (Radarr.movie_tags m) ex
                then delete (py_str (Radarr.tmdbId m)) d else d) d media
  = without (exempt_movie_keys ex media) d.
Proof.
  revert d. induction media as [|m media IH]; intros d; simpl.
  - by rewrite without_nil.
  - rewrite IH. unfold exempt_movie_keys. rewrite filter_cons.
    destruct (any_in (Radarr.movie_tags m) ex) eqn:E.
    + rewrite decide_True by done. simpl. by rewrite without_cons.
    + by rewrite decide_False by done.
Qed.

(** ** Two runs side by side *)

Section Courses.
Context {call line : Type}.
Local Abbreviation M := (@M call line).
Local Abbreviation same_course := (@same_course call line).

Lemma same_course_refl w : same_course w w.
Proof. done. Qed.

Lemma same_course_performed f w1 w2 :
  same_course w1 w2 → same_course (performed f w1) w2.
Proof. by intros [? ?]. Qed.

Lemma same_course_logged l w1 w2 :
  same_course w1 w2 → same_course (logged l w1) w2.
Proof. by intros [? ?]. Qed.

Lemma same_course_sym w1 w2 : same_course w1 w2 → same_course w2 w1.
Proof. by intros [? ?]. Qed.

Lemma same_course_visited key d w1 w2 :
  same_course w1 w2 → same_course (visited key d w1) (visited key d w2).
Proof. intros [? ?]. split; simpl; [done|]. by f_equal. Qed.

Lemma same_course_popped key w1 w2 :
  same_course w1 w2 → same_course (popped key w1) (popped key w2).
Proof. intros [? ?]. split; simpl; [|done]. by f_equal. Qed.

Lemma same_course_quiet {A} (m : M A) w1 w2 :
  quiet m → same_course w1 w2 → same_course (m w1).2 w2.
Proof. intros Hq [? ?]. destruct (Hq w1) as [? ?]. split; congruence. Qed.

Lemma in_step_bind {A B A' B'} (R : A → B → Prop) (R' : A' → B' → Prop)
    (m1 : M A) (m2 : M B) (k1 : A → M A') (k2 : B → M B') w1 w2 :
  in_step R (m1 w1) (m2 w2) →
  (∀ a b v1 v2, R a b → same_course v1 v2 → in_step R' (k1 a v1) (k2 b v2)) →
  in_step R' (bind m1 k1 w1) (bind m2 k2 w2).
Proof.
  intros [Hc Hr] Hk. unfold bind.
  destruct (m1 w1) as [[a|e1] v1], (m2 w2) as [[b|e2] v2]; simpl in *;
    try done.
  by apply Hk.
Qed.

Lemma in_step_for_each {A B1 B2} (body1 : B1 → A → M B1) (body2 : B2 → A → M B2) l :
  (∀ a1 a2 x w1 w2, same_course w1 w2 →
     in_step (λ _ _, True) (body1 a1 x w1) (body2 a2 x w2)) →
  ∀ a1 a2 w1 w2, same_course w1 w2 →
    in_step (λ _ _, True) (for_each body1 a1 l w1) (for_each body2 a2 l w2).
Proof.
  intros Hb. induction l as [|x l IH]; intros a1 a2 w1 w2 Hc; simpl.
  - done.
  - eapply in_step_bind; [by apply Hb|]. intros; by apply IH.
Qed.

Lemma in_step_retry_internal {A B} (R : A → B → Prop) (f1 : M A) (f2 : M B) n delay :
  (∀ w1 w2, same_course w1 w2 → in_step R (f1 w1) (f2 w2)) →
  ∀ w1 w2, same_course w1 w2 →
    in_step R (retry_internal n delay f1 w1) (retry_internal n delay f2 w2).
Proof.
  intros Hf. induction n as [|n IH]; intros w1 w2 Hc; simpl;
    unfold try_except; specialize (Hf w1 w2 Hc); destruct Hf as [Hc' Hr];
    destruct (f1 w1) as [[a|e1] v1], (f2 w2) as [[b|e2] v2]; simpl in *;
    try done.
  run_monad. apply IH. destruct Hc' as [? ?]. by split.
Qed.

Lemma in_step_request_fixed {A} c (answer : list (effect call) → option A) r w1 w2 :
  (∀ h, answer h = r) →
  same_course w1 w2 →
  in_step eq (request c answer w1) (request c answer w2).
Proof.
  intros Ha [Hd Hp]. run_monad. rewrite !Ha.
  destruct r; repeat split; simpl; congruence.
Qed.

Lemma emits_retry_internal (P : effect call → Prop) {A} (f : M A) n delay :
  P (Sleep delay) → emits P f → emits P (retry_internal n delay f).
Proof.
  intros Hs Hf. induction n as [|n IH]; simpl.
  - apply emits_try_except; [done|]. intros; apply emits_raise.
  - apply emits_try_except; [done|]. intros e.
    apply emits_bind; [by apply emits_perform|]. intros _. apply IH.
Qed.

Lemma retry_internal_first {A} (f : M A) n delay w a w' :
  f w = (Ret a, w') → retry_internal n delay f w = (Ret a, w').
Proof. intros H. destruct n; simpl; unfold try_except; by rewrite H. Qed.
End Courses.

(** ** A batch of series *)

Ltac series_cases ex s w :=
  destruct (decide (is_Some (w_dict w !! py_str (Sonarr.tvdbId s)))) as [Hp|Hp];
  [ destruct (any_in (Sonarr.series_tags s) ex) eqn:Hex;
    [ rewrite process_series_exempt by done
    | destruct (decide (is_Some (Sonarr.series_id s))) as [Hi|Hi];
      [ match goal with
        | |- context [Sonarr.process_series _ ?cfg _ _ _ _ _] =>
            destruct (negb (Sonarr.monitor_continuing_series cfg)
                      || get_bool (Sonarr.ended s)) eqn:Hend;
            [ rewrite process_series_ended by done
            | rewrite process_series_continuing by done ]
        end
      | rewrite process_series_no_id by (done || by apply eq_None_not_Some) ] ]
  | rewrite process_series_absent by (by apply eq_None_not_Some) ].

Section SonarrBatch.
Variable svc : Sonarr.service.
Variable cfg : Sonarr.config.

Lemma process_series_dict ex dry t s w :
  w_dict (Sonarr.process_series svc cfg ex dry t s w).2 =
  if any_in (Sonarr.series_tags s) ex
  then delete (py_str (Sonarr.tvdbId s)) (w_dict w) else w_dict w.
Proof.
  series_cases ex s w; simpl; try done.
  - apply (quiet_bind _ _ (quiet_handle_ended_series svc s dry)
             (λ a, quiet_ret _) (visited _ Deleted w)).
  - apply (quiet_bind _ _ (quiet_handle_continuing_series svc cfg s dry)
             (λ a, quiet_ret _) (visited _ Trimmed w)).
  - destruct (any_in _ _); [|done].
    symmetry. apply delete_id. by apply eq_None_not_Some.
Qed.

Lemma emits_handle_ended_series (P : effect Sonarr.call → Prop) s dry :
  (dry = false → P (Request (Sonarr.DeleteSeries (Sonarr.series_id s)))) →
  emits P (Sonarr.handle_ended_series svc s dry).
Proof.
  intros HP. unfold Sonarr.handle_ended_series. destruct dry.
  - apply emits_bind; [apply emits_logger|]. intros; apply emits_ret.
  - apply emits_bind; [|intros; apply emits_ret].
    apply emits_try_except; [|intros; apply emits_logger].
    apply emits_bind; [|intros; apply emits_logger].
    apply emits_request. by apply HP.
Qed.

Lemma emits_handle_continuing_series (P : effect Sonarr.call → Prop) s dry :
  P (Request (Sonarr.GetEpisode (Sonarr.series_id s))) →
  (dry = false → ∀ c, (∀ i, c ≠ Sonarr.DeleteSeries i) →
                      c ≠ Sonarr.GetSeries → c ≠ Sonarr.GetTag → P (Request c)) →
  emits P (Sonarr.handle_continuing_series svc cfg s dry).
Proof.
  intros HG HP. unfold Sonarr.handle_continuing_series.
  apply emits_bind; [by apply emits_request|]. intros episodes. destruct dry.
  - apply emits_bind; [apply emits_logger|]. intros; apply emits_ret.
  - specialize (HP eq_refl). apply emits_try_except.
    + apply emits_bind.
      * case_match; [apply emits_ret|].
        apply emits_bind; [|intros; apply emits_logger].
        apply emits_request. by apply HP.
      * intros _. case_match; [apply emits_ret|].
        apply emits_bind; [apply emits_request; by apply HP|]. intros _.
        apply emits_bind; [apply emits_request; by apply HP|].
        intros; apply emits_ret.
    + intros e. apply emits_bind; [apply emits_logger|intros; apply emits_ret].
Qed.

Lemma emits_process_series (P : effect Sonarr.call → Prop) ex dry t s :
  (∀ i, P (Request (Sonarr.GetEpisode i))) →
  (dry = false → ∀ c, c ≠ Sonarr.GetSeries → c ≠ Sonarr.GetTag → P (Request c)) →
  emits P (Sonarr.process_series svc cfg ex dry t s).
Proof.
  intros HG HP. unfold Sonarr.process_series.
  apply emits_bind; [apply emits_dict_has|]. intros present.
  destruct (negb present); [apply emits_ret|].
  destruct (any_in _ _).
  { apply emits_bind; [apply emits_dict_pop|]. intros _.
    apply emits_bind; [apply emits_visit|]. intros _.
    apply emits_bind; [apply emits_logger|]. intros; apply emits_ret. }
  destruct (Sonarr.series_id s) eqn:Hid.
  - destruct (_ || _).
    + apply emits_bind; [apply emits_visit|]. intros _.
      apply emits_bind; [|intros; apply emits_ret].
      apply emits_handle_ended_series. intros ->. by apply HP.
    + apply emits_bind; [apply emits_visit|]. intros _.
      apply emits_bind; [|intros; apply emits_ret].
      apply emits_handle_continuing_series; [done|].
      intros -> c _ ? ?. by apply HP.
  - apply emits_bind; [apply emits_visit|]. intros; apply emits_ret.
Qed.

Lemma emits_get_and_delete_media (P : effect Sonarr.call → Prop) dry :
  (∀ c, (dry = true → Sonarr.is_mutating (Request c) = false) → P (Request c)) →
  emits P (Sonarr.get_and_delete_media svc cfg dry).
Proof.
  intros HP. unfold Sonarr.get_and_delete_media.
  apply emits_bind; [apply emits_request; by apply HP|]. intros media.
  apply emits_bind.
  { apply emits_bind; [apply emits_request; by apply HP|].
    intros; apply emits_ret. }
  intros ex. apply emits_bind.
  { apply emits_for_each. intros t s. apply emits_process_series.
    - intros i. by apply HP.
    - intros -> c _ _. by apply HP. }
  intros total. apply emits_bind; [|intros; apply emits_dict_get].
  destruct dry; [apply emits_logger|].
  destruct (0 <? total); [apply emits_logger|apply emits_ret].
Qed.

Lemma process_series_in_step media tags episodes ex t1 t2 s w1 w2 :
  sonarr_snapshot svc media tags episodes →
  same_course w1 w2 →
  in_step (λ _ _, True) (Sonarr.process_series svc cfg ex true t1 s w1)
                        (Sonarr.process_series svc cfg ex false t2 s w2).
Proof.
  intros Hsnap [Hd Hpath].
  destruct (decide (is_Some (w_dict w1 !! py_str (Sonarr.tvdbId s)))) as [Hp|Hp].
  - assert (Hp2 : is_Some (w_dict w2 !! py_str (Sonarr.tvdbId s)))
      by by rewrite <- Hd.
    destruct (any_in (Sonarr.series_tags s) ex) eqn:Hex.
    { rewrite !process_series_exempt by done.
      repeat split; simpl; congruence. }
    destruct (decide (is_Some (Sonarr.series_id s))) as [Hi|Hi].
    + destruct (negb (Sonarr.monitor_continuing_series cfg)
                || get_bool (Sonarr.ended s)) eqn:Hend.
      * rewrite !process_series_ended by done. unfold bind.
        rewrite handle_ended_series_dry, handle_ended_series_live.
        repeat split; simpl; congruence.
      * rewrite !process_series_continuing by done. unfold bind.
        destruct (episodes (Sonarr.series_id s)) as [eps|] eqn:He.
        -- rewrite (handle_continuing_series_dry _ _ _ _ eps)
             by (simpl; by rewrite (proj2 (proj2 (Hsnap _)))).
           destruct (handle_continuing_series_live_returns svc cfg s
                       (visited (py_str (Sonarr.tvdbId s)) Trimmed w2) eps)
             as [z Hz]; [simpl; by rewrite (proj2 (proj2 (Hsnap _)))|].
           destruct (quiet_handle_continuing_series svc cfg s false
                       (visited (py_str (Sonarr.tvdbId s)) Trimmed w2))
             as [Hqd Hqp].
           destruct (Sonarr.handle_continuing_series svc cfg s false _)
             as [r v2]; simpl in *; subst r.
           repeat split; simpl; congruence.
        -- rewrite !handle_continuing_series_unfetched
             by (simpl; by rewrite (proj2 (proj2 (Hsnap _)))).
           repeat split; simpl; congruence.
    + rewrite !process_series_no_id by (done || by apply eq_None_not_Some).
      repeat split; simpl; congruence.
  - assert (Hp2 : ¬ is_Some (w_dict w2 !! py_str (Sonarr.tvdbId s)))
      by by rewrite <- Hd.
    rewrite !process_series_absent by (by apply eq_None_not_Some).
    by repeat split.
Qed.

Lemma returns_process_series ex dry t s :
  (∀ h id, is_Some (Sonarr.get_episode svc h id)) →
  returns (Sonarr.process_series svc cfg ex dry t s).
Proof.
  intros Hav w. series_cases ex s w; simpl; eauto.
  - unfold bind. destruct dry.
    + rewrite handle_ended_series_dry. eauto.
    + rewrite handle_ended_series_live. eauto.
  - unfold bind.
    destruct (Hav (w_effects (visited (py_str (Sonarr.tvdbId s)) Trimmed w))
                  (Sonarr.series_id s)) as [eps He].
    destruct dry.
    + rewrite (handle_continuing_series_dry _ _ _ _ eps) by done. eauto.
    + destruct (handle_continuing_series_live_returns svc cfg s _ eps He)
        as [z Hz].
      destruct (Sonarr.handle_continuing_series svc cfg s false _)
        as [r v]; simpl in *; subst r. eauto.
Qed.

Lemma get_and_delete_media_run dry w media tags :
  Sonarr.get_series svc (w_effects w) = Some media →
  Sonarr.get_tag svc (w_effects w ++ [Request Sonarr.GetSeries]) = Some tags →
  Sonarr.get_and_delete_media svc cfg dry w =
  bind (for_each (Sonarr.process_series svc cfg
                    (exempt_ids_of (Sonarr.exempt_tag_names cfg) tags) dry) 0 media)
       (λ total_size,
          bind (if dry then logger (Sonarr.WouldHaveTotalFreed total_size)
                else if 0 <? total_size
                     then logger (Sonarr.TotalFreed total_size)
                     else ret tt)
               (λ _, dict_get))
       (performed (Request Sonarr.GetTag)
          (performed (Request Sonarr.GetSeries) w)).
Proof.
  intros Hm Ht. unfold Sonarr.get_and_delete_media, Sonarr.get_media,
    Sonarr.get_exempt_tag_ids.
  run_monad. rewrite Hm. simpl. rewrite Ht. done.
Qed.

(** What a run that could list the series and the tags returns, when
    it returns. *)
Lemma get_and_delete_media_returned dry w media tags d :
  Sonarr.get_series svc (w_effects w) = Some media →
  Sonarr.get_tag svc (w_effects w ++ [Request Sonarr.GetSeries]) = Some tags →
  (Sonarr.get_and_delete_media svc cfg dry w).1 = Ret d →
  d = without (exempt_series_keys
                 (exempt_ids_of (Sonarr.exempt_tag_names cfg) tags) media)
              (w_dict w) ∧
  w_dict (Sonarr.get_and_delete_media svc cfg dry w).2 = d.
Proof.
  intros Hm Ht. rewrite (get_and_delete_media_run _ _ _ _ Hm Ht).
  set (ex := exempt_ids_of _ _).
  set (w0 := performed _ _).
  pose proof (for_each_dict (Sonarr.process_series svc cfg ex dry)
                (λ d s, if any_in (Sonarr.series_tags s) ex
                        then delete (py_str (Sonarr.tvdbId s)) d else d) media
                (λ acc s w, process_series_dict ex dry acc s w) 0 w0) as Hd.
  unfold bind.
  destruct (for_each _ 0 media w0) as [[total|e] w1]; simpl in *; [|done].
  specialize (Hd total eq_refl). rewrite foldl_pop_series in Hd.
  assert (w_dict w1 = without (exempt_series_keys ex media) (w_dict w)) as Hw
    by done.
  destruct dry; [|destruct (0 <? total)]; run_monad;
    intros [= <-]; by rewrite Hw.
Qed.
Lemma get_and_delete_media_returns dry w :
  (∀ h, is_Some (Sonarr.get_series svc h)) →
  (∀ h, is_Some (Sonarr.get_tag svc h)) →
  (∀ h id, is_Some (Sonarr.get_episode svc h id)) →
  ∃ d, (Sonarr.get_and_delete_media svc cfg dry w).1 = Ret d.
Proof.
  intros Hm Ht He.
  destruct (Hm (w_effects w)) as [media Em].
  destruct (Ht (w_effects w ++ [Request Sonarr.GetSeries])) as [tags Et].
  rewrite (get_and_delete_media_run _ _ _ _ Em Et).
  set (ex := exempt_ids_of _ _). set (w0 := performed _ _).
  destruct (returns_for_each (Sonarr.process_series svc cfg ex dry) media
              (λ t s, returns_process_series ex dry t s He) 0 w0) as [total E].
  unfold bind.
  destruct (for_each _ 0 media w0) as [r w1]; simpl in *; subst r.
  destruct dry; [|destruct (0 <? total)]; run_monad; eauto.
Qed.

Lemma get_and_delete_media_in_step media tags episodes w :
  sonarr_snapshot svc media tags episodes →
  in_step eq (Sonarr.get_and_delete_media svc cfg true w)
             (Sonarr.get_and_delete_media svc cfg false w).
Proof.
  intros Hsnap. unfold Sonarr.get_and_delete_media.
  eapply (in_step_bind eq eq).
  { apply (in_step_request_fixed _ _ media); [apply Hsnap|done]. }
  intros ? listing v1 v2 -> Hc. eapply (in_step_bind eq eq).
  { unfold Sonarr.get_exempt_tag_ids. eapply (in_step_bind eq eq).
    - apply (in_step_request_fixed _ _ tags); [apply Hsnap|done].
    - intros ? catalogue u1 u2 -> Hu. by split. }
  intros ? ex u1 u2 -> Hu. eapply (in_step_bind (λ _ _, True) eq).
  { apply in_step_for_each; [|done]. intros.
    by eapply process_series_in_step. }
  intros t1 t2 x1 x2 _ Hx. eapply (in_step_bind (λ _ _, True)).
  - destruct (0 <? t2); destruct Hx; by repeat split.
  - intros _ _ y1 y2 _ [Hy ?]. by repeat split.
Qed.
End SonarrBatch.

(** ** A batch of movies *)

Ltac movie_cases ex m w :=
  destruct (decide (is_Some (w_dict w !! py_str (Radarr.tmdbId m)))) as [Hp|Hp];
  [ destruct (any_in (Radarr.movie_tags m) ex) eqn:Hex;
    [ rewrite process_movie_exempt by done
    | destruct (decide (is_Some (Radarr.movie_id m))) as [Hi|Hi];
      [ | rewrite process_movie_no_id by (done || by apply eq_None_not_Some) ] ]
  | rewrite process_movie_absent by (by apply eq_None_not_Some) ].

Section RadarrBatch.
Variable svc : Radarr.service.
Variable cfg : Radarr.config.

Lemma process_movie_dict ex dry acc m w :
  w_dict (Radarr.process_movie svc ex dry acc m w).2 =
  if any_in (Radarr.movie_tags m) ex
  then delete (py_str (Radarr.tmdbId m)) (w_dict w) else w_dict w.
Proof.
  movie_cases ex m w; simpl; try done.
  - destruct dry; [by rewrite process_movie_dry|by rewrite process_movie_live].
  - destruct (any_in _ _); [|done].
    symmetry. apply delete_id. by apply eq_None_not_Some.
Qed.

Lemma returns_process_movie ex dry acc m :
  returns (Radarr.process_movie svc ex dry acc m).
Proof.
  intros w. movie_cases ex m w; simpl; eauto.
  destruct dry; [rewrite process_movie_dry by done|
                 rewrite process_movie_live by done]; simpl; eauto.
Qed.

Lemma emits_process_movie (P : effect Radarr.call → Prop) ex dry acc m :
  (dry = false → ∀ i, P (Request (Radarr.DeleteMovie i))) →
  emits P (Radarr.process_movie svc ex dry acc m).
Proof.
  intros HP. unfold Radarr.process_movie.
  apply emits_bind; [apply emits_dict_has|]. intros present.
  destruct (negb present); [apply emits_ret|].
  destruct (any_in _ _).
  { apply emits_bind; [apply emits_dict_pop|]. intros _.
    apply emits_bind; [apply emits_visit|]. intros _.
    apply emits_bind; [apply emits_logger|]. intros; apply emits_ret. }
  destruct (Radarr.movie_id m).
  - apply emits_bind; [apply emits_visit|]. intros _. destruct dry.
    + apply emits_bind; [apply emits_logger|]. intros; apply emits_ret.
    + apply emits_bind; [|intros; apply emits_ret].
      apply emits_try_except; [|intros; apply emits_logger].
      apply emits_bind; [|intros; apply emits_logger].
      apply emits_request. by apply HP.
  - apply emits_bind; [apply emits_visit|]. intros; apply emits_ret.
Qed.

Lemma emits_get_and_delete_media_once (P : effect Radarr.call → Prop) dry :
  (∀ c, (dry = true → Radarr.is_mutating (Request c) = false) → P (Request c)) →
  emits P (Radarr.get_and_delete_media_once svc cfg dry).
Proof.
  intros HP. unfold Radarr.get_and_delete_media_once.
  apply emits_bind; [apply emits_request; by apply HP|]. intros media.
  apply emits_bind.
  { apply emits_bind; [apply emits_request; by apply HP|].
    intros; apply emits_ret. }
  intros ex. apply emits_bind; [apply emits_dict_len|]. intros n.
  apply emits_bind.
  { apply emits_for_each. intros t s. apply emits_process_movie.
    intros -> i. by apply HP. }
  intros acc. apply emits_bind; [apply emits_dict_len|]. intros k.
  apply emits_bind; [|intros; apply emits_dict_get].
  destruct dry; apply emits_logger.
Qed.

Lemma process_movie_in_step ex a1 a2 m w1 w2 :
  same_course w1 w2 →
  in_step (λ _ _, True) (Radarr.process_movie svc ex true a1 m w1)
                        (Radarr.process_movie svc ex false a2 m w2).
Proof.
  intros [Hd Hpath].
  destruct (decide (is_Some (w_dict w1 !! py_str (Radarr.tmdbId m)))) as [Hp|Hp].
  - assert (Hp2 : is_Some (w_dict w2 !! py_str (Radarr.tmdbId m)))
      by by rewrite <- Hd.
    destruct (any_in (Radarr.movie_tags m) ex) eqn:Hex.
    { rewrite !process_movie_exempt by done.
      repeat split; simpl; congruence. }
    destruct (decide (is_Some (Radarr.movie_id m))) as [Hi|Hi].
    + rewrite process_movie_dry, process_movie_live by done.
      repeat split; simpl; congruence.
    + rewrite !process_movie_no_id by (done || by apply eq_None_not_Some).
      repeat split; simpl; congruence.
  - assert (Hp2 : ¬ is_Some (w_dict w2 !! py_str (Radarr.tmdbId m)))
      by by rewrite <- Hd.
    rewrite !process_movie_absent by (by apply eq_None_not_Some).
    by repeat split.
Qed.

Lemma get_and_delete_media_once_in_step media tags w1 w2 :
  radarr_snapshot svc media tags →
  same_course w1 w2 →
  in_step eq (Radarr.get_and_delete_media_once svc cfg true w1)
             (Radarr.get_and_delete_media_once svc cfg false w2).
Proof.
  intros Hsnap Hw. unfold Radarr.get_and_delete_media_once.
  eapply (in_step_bind eq eq).
  { apply (in_step_request_fixed _ _ media); [apply Hsnap|done]. }
  intros ? listing v1 v2 -> Hc. eapply (in_step_bind eq eq).
  { unfold Radarr.get_exempt_tag_ids. eapply (in_step_bind eq eq).
    - apply (in_step_request_fixed _ _ tags); [apply Hsnap|done].
    - intros ? catalogue u1 u2 -> Hu. by split. }
  intros ? ex u1 u2 -> Hu. eapply (in_step_bind (λ _ _, True) eq).
  { by split. }
  intros n1 n2 x1 x2 _ Hx. eapply (in_step_bind (λ _ _, True) eq).
  { apply in_step_for_each; [|done]. intros.
    by eapply process_movie_in_step. }
  intros c1 c2 y1 y2 _ Hy. eapply (in_step_bind (λ _ _, True) eq).
  { by split. }
  intros k1 k2 z1 z2 _ Hz. eapply (in_step_bind (λ _ _, True)).
  - destruct Hz; by repeat split.
  - intros _ _ q1 q2 _ [Hq ?]. by repeat split.
Qed.

Lemma get_and_delete_media_once_run dry w media tags :
  Radarr.get_movie svc (w_effects w) = Some media →
  Radarr.get_tag svc (w_effects w ++ [Request Radarr.GetMovie]) = Some tags →
  Radarr.get_and_delete_media_once svc cfg dry w =
  bind (for_each (Radarr.process_movie svc
                    (exempt_ids_of (Radarr.exempt_tag_names cfg) tags) dry)
                 (O, 0) media)
       (λ acc,
          bind dict_len (λ remaining,
          bind (if dry
                then logger (Radarr.DryRunSummary (length media)
                               (size (w_dict w)) remaining acc.1 acc.2)
                else logger (Radarr.Summary (length media)
                               (size (w_dict w)) remaining acc.1 acc.2))
               (λ _, dict_get)))
       (performed (Request Radarr.GetTag)
          (performed (Request Radarr.GetMovie) w)).
Proof.
  intros Hm Ht. unfold Radarr.get_and_delete_media_once, Radarr.get_media,
    Radarr.get_exempt_tag_ids.
  run_monad. rewrite Hm. simpl. rewrite Ht. done.
Qed.

(** A run that can list the movies and the tags returns at the first
    try, and returns the candidates less the exempt keys. *)
Lemma radarr_get_and_delete_media_returned dry w media tags :
  Radarr.get_movie svc (w_effects w) = Some media →
  Radarr.get_tag svc (w_effects w ++ [Request Radarr.GetMovie]) = Some tags →
  let r := Radarr.get_and_delete_media svc cfg dry w in
  let d := without (exempt_movie_keys
                      (exempt_ids_of (Radarr.exempt_tag_names cfg) tags) media)
                   (w_dict w) in
  r = Radarr.get_and_delete_media_once svc cfg dry w ∧
  r.1 = Ret d ∧ w_dict r.2 = d.
Proof.
  intros Hm Ht r d.
  assert (∃ v, Radarr.get_and_delete_media_once svc cfg dry w = (Ret d, v)
               ∧ w_dict v = d) as (v & Hv & Hd).
  { rewrite (get_and_delete_media_once_run _ _ _ _ Hm Ht).
    set (ex := exempt_ids_of _ _) in *. set (w0 := performed _ _).
    pose proof (for_each_dict (Radarr.process_movie svc ex dry)
                (λ d m, if any_in (Radarr.movie_tags m) ex
                        then delete (py_str (Radarr.tmdbId m)) d else d) media
                (λ acc m w, process_movie_dict ex dry acc m w) (O, 0) w0) as Hd.
    destruct (returns_for_each (Radarr.process_movie svc ex dry) media
                (λ acc m, returns_process_movie ex dry acc m) (O, 0) w0)
      as [acc E].
    unfold bind.
    destruct (for_each _ (O, 0) media w0) as [o w1]; simpl in *; subst o.
    specialize (Hd acc eq_refl). rewrite foldl_pop_movies in Hd.
    run_monad. destruct dry; simpl; eexists; by rewrite Hd. }
  subst r. unfold Radarr.get_and_delete_media, retry.
  rewrite (retry_internal_first _ _ _ _ _ _ Hv), Hv. done.
Qed.
End RadarrBatch.

(** ** Dry runs and live runs *)

(** C4.  A dry run of either batch entry point makes no request that
    changes the service, whatever the service answers.  On a service
    whose listings are a fixed snapshot, the dry run and the live run
    from the same world take every candidate item through the same
    branch (the paths are equal), leave the same candidate mapping, and
    either both return, the same mapping, or both raise. *)
Theorem dry_run_is_silent_and_classifies_as_live :
  (∀ svc cfg w,
     ∃ new, w_effects (Sonarr.get_and_delete_media svc cfg true w).2
            = w_effects w ++ new
            ∧ Forall (λ f, Sonarr.is_mutating f = false) new) ∧
  (∀ svc cfg media tags episodes w,
     sonarr_snapshot svc media tags episodes →
     let dry := Sonarr.get_and_delete_media svc cfg true w in
     let live := Sonarr.get_and_delete_media svc cfg false w in
     w_path dry.2 = w_path live.2 ∧
     w_dict dry.2 = w_dict live.2 ∧
     match dry.1, live.1 with
     | Ret a, Ret b => a = b
     | Raise _, Raise _ => True
     | _, _ => False
     end) ∧
  (∀ svc cfg w,
     ∃ new, w_effects (Radarr.get_and_delete_media svc cfg true w).2
            = w_effects w ++ new
            ∧ Forall (λ f, Radarr.is_mutating f = false) new) ∧
  (∀ svc cfg media tags w,
     radarr_snapshot svc media tags →
     let dry := Radarr.get_and_delete_media svc cfg true w in
     let live := Radarr.get_and_delete_media svc cfg false w in
     w_path dry.2 = w_path live.2 ∧
     w_dict dry.2 = w_dict live.2 ∧
     match dry.1, live.1 with
     | Ret a, Ret b => a = b
     | Raise _, Raise _ => True
     | _, _ => False
     end).
Proof.
  split; [|split; [|split]].
  - intros svc cfg w. apply emits_get_and_delete_media.
    intros c Hc. by apply Hc.
  - intros svc cfg media tags episodes w Hsnap dry live.
    destruct (get_and_delete_media_in_step svc cfg media tags episodes w Hsnap)
      as [[Hd Hp] Hr].
    done.
  - intros svc cfg w. unfold Radarr.get_and_delete_media, retry.
    apply emits_retry_internal; [done|].
    apply emits_get_and_delete_media_once. intros c Hc. by apply Hc.
  - intros svc cfg media tags w Hsnap dry live.
    destruct (in_step_retry_internal eq
                (Radarr.get_and_delete_media_once svc cfg true)
                (Radarr.get_and_delete_media_once svc cfg false) 2 5
                (λ w1 w2, get_and_delete_media_once_in_step svc cfg media tags
                            w1 w2 Hsnap)
                w w (same_course_refl w)) as [[Hd Hp] Hr].
    done.
Qed.

Lemma dry_run_is_silent_and_classifies_as_live_witness :
  sonarr_snapshot Examples.sonarr_readonly (Some Examples.shows)
    (Some [Examples.keep]) (λ _, Some Examples.running_episodes) ∧
  radarr_snapshot Examples.radarr_readonly (Some Examples.movies)
    (Some [Examples.keep]) ∧
  w_path (Sonarr.get_and_delete_media Examples.sonarr_readonly
            Examples.sonarr_cfg true Examples.sonarr_start).2
  = w_path (Sonarr.get_and_delete_media Examples.sonarr_readonly
              Examples.sonarr_cfg false Examples.sonarr_start).2 ∧
  w_path (Radarr.get_and_delete_media Examples.radarr_readonly
            Examples.radarr_cfg true Examples.radarr_start).2
  = w_path (Radarr.get_and_delete_media Examples.radarr_readonly
              Examples.radarr_cfg false Examples.radarr_start).2.
Proof.
  assert (Hs : sonarr_snapshot Examples.sonarr_readonly (Some Examples.shows)
                 (Some [Examples.keep]) (λ _, Some Examples.running_episodes))
    by (intros h; repeat split).
  assert (Hr : radarr_snapshot Examples.radarr_readonly (Some Examples.movies)
                 (Some [Examples.keep]))
    by (intros h; repeat split).
  split; [exact Hs|]. split; [exact Hr|]. split.
  - exact (proj1 (proj1 (proj2 dry_run_is_silent_and_classifies_as_live)
                    Examples.sonarr_readonly Examples.sonarr_cfg _ _ _
                    Examples.sonarr_start Hs)).
  - exact (proj1 (proj2 (proj2 (proj2 dry_run_is_silent_and_classifies_as_live))
                    Examples.radarr_readonly Examples.radarr_cfg _ _
                    Examples.radarr_start Hr)).
Defined.

(** ** The mapping returned *)

(** C10.  On a service that answers its listings, a dry or a live run of
    either batch entry point returns, whatever becomes of the requests
    that change the service: what it returns is the candidate mapping
    it was given less the keys of the listed items that carry an exempt
    tag, so a key that belongs to no exempt item is kept with its title,
    and the mapping object itself is left in that state. *)
Theorem returned_mapping_drops_exempt_keys_only :
  (∀ svc cfg dry w media tags episodes,
     sonarr_snapshot svc (Some media) (Some tags) episodes →
     (∀ id, is_Some (episodes id)) →
     let r := Sonarr.get_and_delete_media svc cfg dry w in
     let keys := exempt_series_keys
                   (exempt_ids_of (Sonarr.exempt_tag_names cfg) tags) media in
     r.1 = Ret (without keys (w_dict w)) ∧
     w_dict r.2 = without keys (w_dict w) ∧
     ∀ k, without keys (w_dict w) !! k
          = if decide (k ∈ keys) then None else w_dict w !! k) ∧
  (∀ svc cfg dry w media tags,
     radarr_snapshot svc (Some media) (Some tags) →
     let r := Radarr.get_and_delete_media svc cfg dry w in
     let keys := exempt_movie_keys
                   (exempt_ids_of (Radarr.exempt_tag_names cfg) tags) media in
     r.1 = Ret (without keys (w_dict w)) ∧
     w_dict r.2 = without keys (w_dict w) ∧
     ∀ k, without keys (w_dict w) !! k
          = if decide (k ∈ keys) then None else w_dict w !! k).
Proof.
  split.
  - intros svc cfg dry w media tags episodes Hsnap Hav r keys.
    assert (Hm : ∀ h, Sonarr.get_series svc h = Some media) by apply Hsnap.
    assert (Ht : ∀ h, Sonarr.get_tag svc h = Some tags) by apply Hsnap.
    assert (He : ∀ h id, is_Some (Sonarr.get_episode svc h id)).
    { intros h id. rewrite (proj2 (proj2 (Hsnap h))). apply Hav. }
    destruct (get_and_delete_media_returns svc cfg dry w) as [d Hd];
      [intros h; by rewrite Hm|intros h; by rewrite Ht|done|].
    destruct (get_and_delete_media_returned svc cfg dry w media tags d
                (Hm _) (Ht _) Hd) as [-> Hw].
    split; [done|]. split; [done|]. intros k. apply without_lookup.
  - intros svc cfg dry w media tags Hsnap r keys.
    destruct (radarr_get_and_delete_media_returned svc cfg dry w media tags)
      as (_ & Hr & Hw); [apply Hsnap..|].
    split; [done|]. split; [done|]. intros k. apply without_lookup.
Qed.

Lemma returned_mapping_drops_exempt_keys_only_witness :
  sonarr_snapshot Examples.sonarr_readonly (Some Examples.shows)
    (Some [Examples.keep]) (λ _, Some Examples.running_episodes) ∧
  (∀ id : option Z, is_Some (Some Examples.running_episodes)) ∧
  radarr_snapshot Examples.radarr_readonly (Some Examples.movies)
    (Some [Examples.keep]) ∧
  (Sonarr.get_and_delete_media Examples.sonarr_readonly Examples.sonarr_cfg
     false Examples.sonarr_start).1
  = Ret (without ["101"%string] Examples.show_candidates) ∧
  (Radarr.get_and_delete_media Examples.radarr_readonly Examples.radarr_cfg
     false Examples.radarr_start).1
  = Ret (without ["41"%string] Examples.movie_candidates).
Proof.
  assert (Hs : sonarr_snapshot Examples.sonarr_readonly (Some Examples.shows)
                 (Some [Examples.keep]) (λ _, Some Examples.running_episodes))
    by (intros h; repeat split).
  assert (Ha : ∀ id : option Z, is_Some (Some Examples.running_episodes))
    by (intros id; by eexists).
  assert (Hr : radarr_snapshot Examples.radarr_readonly (Some Examples.movies)
                 (Some [Examples.keep]))
    by (intros h; repeat split).
  split; [exact Hs|]. split; [exact Ha|]. split; [exact Hr|]. split.
  - exact (proj1 (proj1 returned_mapping_drops_exempt_keys_only
                    Examples.sonarr_readonly Examples.sonarr_cfg false
                    Examples.sonarr_start _ _ _ Hs Ha)).
  - exact (proj1 (proj2 returned_mapping_drops_exempt_keys_only
                    Examples.radarr_readonly Examples.radarr_cfg false
                    Examples.radarr_start _ _ Hr)).
Defined.

(** ** Bytes counted by a dry run *)

Section Tallies.
Context {call line : Type}.
Local Abbreviation M := (@M call line).


End Tallies.






(** ** Trimming a continuing series *)

Section SonarrTrim.
Variable svc : Sonarr.service.
Variable cfg : Sonarr.config.

Lemma handle_continuing_series_live_effects s w episodes :
  Sonarr.get_episode svc (w_effects w) (Sonarr.series_id s) = Some episodes →
  ∃ k, w_effects (Sonarr.handle_continuing_series svc cfg s false w).2
       = w_effects w
         ++ Request (Sonarr.GetEpisode (Sonarr.series_id s))
            :: take k (trim_plan s (Sonarr.episodes_to_unload episodes
                                       (Sonarr.episodes_to_load cfg))).
Proof.
  intros H. unfold Sonarr.handle_continuing_series, Sonarr.get_media_episodes,
    Sonarr.monitor_media_episodes, Sonarr.delete_media_episodes,
    Sonarr.put_media, trim_plan.
  run_monad. rewrite H.
  destruct (Sonarr.unmonitor_episode_ids _) as [|u us];
    destruct (Sonarr.delete_episode_file_ids _) as [|d ds]; simpl;
    repeat (case_match; simpl in *; simplify_eq);
    rewrite <- ?(assoc_L (++)); simpl;
    first [ by exists 0%nat | by exists 1%nat | by exists 2%nat | by exists 3%nat ].
Qed.

Lemma handle_continuing_series_live_done s w episodes updated :
  let unload := Sonarr.episodes_to_unload episodes (Sonarr.episodes_to_load cfg) in
  Sonarr.get_episode svc (w_effects w) (Sonarr.series_id s) = Some episodes →
  Sonarr.delete_episode_file_ids unload ≠ [] →
  (Sonarr.unmonitor_episode_ids unload ≠ [] →
   ∀ h, Sonarr.put_episode_monitor svc h
          (Sonarr.unmonitor_episode_ids unload) false = true) →
  (∀ h, Sonarr.delete_episode_file_bulk svc h
          (Sonarr.delete_episode_file_ids unload) = true) →
  (∀ h, Sonarr.put_series svc h (Sonarr.unmonitor_empty_seasons s)
        = Some updated) →
  let r := Sonarr.handle_continuing_series svc cfg s false w in
  r.1 = Ret (get_int (Sonarr.sizeOnDisk s) - get_int (Sonarr.sizeOnDisk updated)) ∧
  w_effects r.2 = w_effects w
    ++ Request (Sonarr.GetEpisode (Sonarr.series_id s)) :: trim_plan s unload.
Proof.
  intros unload H Hd Hmon Hdel Hput.
  unfold Sonarr.handle_continuing_series, Sonarr.get_media_episodes,
    Sonarr.monitor_media_episodes, Sonarr.delete_media_episodes,
    Sonarr.put_media, trim_plan.
  run_monad. rewrite H. fold unload.
  destruct (Sonarr.unmonitor_episode_ids unload) as [|u us];
    destruct (Sonarr.delete_episode_file_ids unload) as [|d ds]; simpl;
    try done;
    try (specialize (Hmon ltac:(done)));
    rewrite ?Hmon, ?Hdel; simpl; rewrite ?Hdel, ?Hput; simpl;
    rewrite ?Hput; simpl;
    rewrite <- ?(assoc_L (++)); simpl; done.
Qed.

(** A live trim counts bytes only out of an update the service
    accepted; one of whose requests is refused counts nothing. *)
Lemma handle_continuing_series_live_bytes s w z :
  (Sonarr.handle_continuing_series svc cfg s false w).1 = Ret z →
  z = 0 ∨
  ∃ h updated,
    Sonarr.put_series svc h (Sonarr.unmonitor_empty_seasons s) = Some updated ∧
    z = get_int (Sonarr.sizeOnDisk s) - get_int (Sonarr.sizeOnDisk updated).
Proof.
  unfold Sonarr.handle_continuing_series, Sonarr.get_media_episodes,
    Sonarr.monitor_media_episodes, Sonarr.delete_media_episodes,
    Sonarr.put_media.
  run_monad.
  repeat (case_match; simpl in *; simplify_eq); try done;
    intros [= <-]; eauto.
Qed.

Lemma trim_plan_keeps_series s unload i :
  Request (Sonarr.DeleteSeries i) ∉ trim_plan s unload.
Proof.
  unfold trim_plan. intros H.
  destruct (Sonarr.unmonitor_episode_ids unload),
           (Sonarr.delete_episode_file_ids unload); simpl in H;
    repeat (apply elem_of_cons in H as [H|H]; [discriminate|]);
    by apply elem_of_nil in H.
Qed.

(** The seasons of the payload of line 138. *)
Lemma unmonitor_empty_seasons_seasons s :
  Forall2 (λ before after,
             Sonarr.season_number after = Sonarr.season_number before ∧
             Sonarr.episodeCount after = Sonarr.episodeCount before ∧
             if 0 <? get_int (Sonarr.episodeCount before)
             then after = before
             else get_bool (Sonarr.season_monitored after) = false)
          (Sonarr.seasons s)
          (Sonarr.seasons (Sonarr.unmonitor_empty_seasons s)).
Proof.
  simpl. induction (Sonarr.seasons s) as [|x l IH]; [constructor|].
  rewrite fmap_cons. constructor; [|done].
  unfold Sonarr.unmonitor_empty_season.
  destruct (0 <? get_int (Sonarr.episodeCount x)) eqn:E; [done|].
  destruct (get_bool (Sonarr.season_monitored x)) eqn:Em; simpl; by rewrite ?E.
Qed.
End SonarrTrim.

(** C7.  A live trim that fetched the episodes, has file ids to delete
    and whose requests the service accepts: its last two requests are
    the bulk deletion of those ids and then the update of the series;
    in the record the update sends, a season whose episode count is
    positive is as it was, and any other season reads as not monitored,
    with its number and count as they were; the bytes the trim returns
    are the size on disk of the series before the update less the size
    on disk in the record the update returns. *)
Theorem live_trim_unmonitors_empty_seasons_and_measures
    svc cfg s w episodes updated :
  let unload := Sonarr.episodes_to_unload episodes (Sonarr.episodes_to_load cfg) in
  Sonarr.get_episode svc (w_effects w) (Sonarr.series_id s) = Some episodes →
  Sonarr.delete_episode_file_ids unload ≠ [] →
  (Sonarr.unmonitor_episode_ids unload ≠ [] →
   ∀ h, Sonarr.put_episode_monitor svc h
          (Sonarr.unmonitor_episode_ids unload) false = true) →
  (∀ h, Sonarr.delete_episode_file_bulk svc h
          (Sonarr.delete_episode_file_ids unload) = true) →
  (∀ h, Sonarr.put_series svc h (Sonarr.unmonitor_empty_seasons s)
        = Some updated) →
  let r := Sonarr.handle_continuing_series svc cfg s false w in
  r.1 = Ret (get_int (Sonarr.sizeOnDisk s) - get_int (Sonarr.sizeOnDisk updated)) ∧
  (∃ before,
     w_effects r.2
     = before ++ [Request (Sonarr.DeleteEpisodeFileBulk
                             (Sonarr.delete_episode_file_ids unload));
                  Request (Sonarr.PutSeries (Sonarr.unmonitor_empty_seasons s))]) ∧
  Forall2 (λ before after,
             Sonarr.season_number after = Sonarr.season_number before ∧
             Sonarr.episodeCount after = Sonarr.episodeCount before ∧
             if 0 <? get_int (Sonarr.episodeCount before)
             then after = before
             else get_bool (Sonarr.season_monitored after) = false)
          (Sonarr.seasons s)
          (Sonarr.seasons (Sonarr.unmonitor_empty_seasons s)).
Proof.
  intros unload H Hd Hmon Hdel Hput r.
  destruct (handle_continuing_series_live_done svc cfg s w episodes updated
              H Hd Hmon Hdel Hput) as [Hr He].
  split; [done|]. split; [|apply unmonitor_empty_seasons_seasons].
  subst r. rewrite He. unfold trim_plan. fold unload.
  destruct (Sonarr.delete_episode_file_ids unload) as [|d ds]; [done|].
  eexists (w_effects w ++ _ :: _). rewrite <- (assoc_L (++)). simpl.
  reflexivity.
Qed.

Lemma live_trim_unmonitors_empty_seasons_and_measures_witness :
  let unload := Sonarr.episodes_to_unload Examples.running_episodes 1 in
  Sonarr.get_episode Examples.sonarr_up [] (Some 3)
  = Some Examples.running_episodes ∧
  Sonarr.delete_episode_file_ids unload ≠ [] ∧
  (∀ h, Sonarr.put_episode_monitor Examples.sonarr_up h
          (Sonarr.unmonitor_episode_ids unload) false = true) ∧
  (∀ h, Sonarr.delete_episode_file_bulk Examples.sonarr_up h
          (Sonarr.delete_episode_file_ids unload) = true) ∧
  (∀ h, Sonarr.put_series Examples.sonarr_up h
          (Sonarr.unmonitor_empty_seasons Examples.running_show)
        = Some Examples.running_show_trimmed) ∧
  (Sonarr.handle_continuing_series Examples.sonarr_up Examples.sonarr_cfg
     Examples.running_show false Examples.sonarr_start).1 = Ret 1800.
Proof.
  intros unload.
  assert (H1 : Sonarr.get_episode Examples.sonarr_up [] (Some 3)
               = Some Examples.running_episodes) by reflexivity.
  assert (H2 : Sonarr.delete_episode_file_ids unload ≠ [])
    by (vm_compute; discriminate).
  assert (H3 : ∀ h, Sonarr.put_episode_monitor Examples.sonarr_up h
                      (Sonarr.unmonitor_episode_ids unload) false = true)
    by reflexivity.
  assert (H4 : ∀ h, Sonarr.delete_episode_file_bulk Examples.sonarr_up h
                      (Sonarr.delete_episode_file_ids unload) = true)
    by reflexivity.
  assert (H5 : ∀ h, Sonarr.put_series Examples.sonarr_up h
                      (Sonarr.unmonitor_empty_seasons Examples.running_show)
                    = Some Examples.running_show_trimmed)
    by reflexivity.
  repeat (split; [assumption|]).
  exact (proj1 (live_trim_unmonitors_empty_seasons_and_measures
                  Examples.sonarr_up Examples.sonarr_cfg Examples.running_show
                  Examples.sonarr_start Examples.running_episodes
                  Examples.running_show_trimmed H1 H2 (λ _, H3) H4 H5)).
Defined.

Lemma trim_plan_split s unload k a f b :
  take k (trim_plan s unload) = a ++ f :: b →
  (f = Request (Sonarr.PutEpisodeMonitor
                  (Sonarr.unmonitor_episode_ids unload) false) ∧ a = []) ∨
  (f = Request (Sonarr.DeleteEpisodeFileBulk
                  (Sonarr.delete_episode_file_ids unload)) ∧
   a = match Sonarr.unmonitor_episode_ids unload with
       | [] => []
       | mon => [Request (Sonarr.PutEpisodeMonitor mon false)]
       end ∧
   (b = [] ∨
    b = [Request (Sonarr.PutSeries (Sonarr.unmonitor_empty_seasons s))])) ∨
  (f = Request (Sonarr.PutSeries (Sonarr.unmonitor_empty_seasons s)) ∧
   Forall (λ g, Sonarr.is_mutating g = true) a).
Proof.
  unfold trim_plan.
  destruct (Sonarr.unmonitor_episode_ids unload) as [|u us];
    destruct (Sonarr.delete_episode_file_ids unload) as [|d ds];
    destruct k as [|[|[|[|k]]]]; simpl;
    destruct a as [|? [|? [|? a]]]; simpl; intros E; simplify_eq;
    try (by destruct a); auto 10.
Qed.

(** C8, as amended.  The turn of a series that has not ended, under the
    enabled policy, never asks for the series to be deleted.  A request
    to delete files names, once each, the files of the episodes past
    the retain window of the episodes listed for the series, those it
    shares with a retained episode among them; it comes after the
    listing and, when any episode past the window reads monitored,
    after the request that unmonitors exactly those episodes, and no
    unmonitor request follows it. *)
Theorem continuing_series_is_trimmed_not_deleted svc cfg ex dry t s w :
  negb (Sonarr.monitor_continuing_series cfg) || get_bool (Sonarr.ended s) = false →
  ∃ new,
    w_effects (Sonarr.process_series svc cfg ex dry t s w).2 = w_effects w ++ new ∧
    trims_past_window svc cfg s w new.
Proof.
  intros Hend.
  assert (Hnil : ∃ new : list (effect Sonarr.call),
            w_effects w = w_effects w ++ new ∧
            trims_past_window svc cfg s w new).
  { exists []. rewrite app_nil_r. split; [done|].
    split; [intros i; apply not_elem_of_nil|].
    split; intros pre; intros; by destruct pre. }
  destruct (decide (is_Some (w_dict w !! py_str (Sonarr.tvdbId s)))) as [Hp|Hp];
    [|by rewrite process_series_absent by (by apply eq_None_not_Some)].
  destruct (any_in (Sonarr.series_tags s) ex) eqn:Hex;
    [by rewrite process_series_exempt by done|].
  destruct (decide (is_Some (Sonarr.series_id s))) as [Hi|Hi];
    [|by rewrite process_series_no_id by (done || by apply eq_None_not_Some)].
  clear Hnil. rewrite process_series_continuing by done. unfold bind.
  set (w0 := visited _ Trimmed w).
  destruct (Sonarr.get_episode svc (w_effects w) (Sonarr.series_id s))
    as [episodes|] eqn:He.
  - set (n := Sonarr.episodes_to_load cfg).
    set (unload := Sonarr.episodes_to_unload episodes n).
    assert (∃ k, w_effects (Sonarr.handle_continuing_series svc cfg s dry w0).2
                 = w_effects w
                   ++ Request (Sonarr.GetEpisode (Sonarr.series_id s))
                      :: take k (trim_plan s unload))
      as [k Hk].
    { destruct dry.
      - exists 0%nat. by rewrite (handle_continuing_series_dry _ _ _ _ episodes).
      - by apply (handle_continuing_series_live_effects svc cfg s w0 episodes). }
    pose proof (sliced_retain_window episodes n) as Hwin.
    exists (Request (Sonarr.GetEpisode (Sonarr.series_id s))
            :: take k (trim_plan s unload)).
    split.
    { by destruct (Sonarr.handle_continuing_series svc cfg s dry w0)
        as [[z|e] w1]. }
    split; [|split].
    + intros i [?|Hin%subseteq_take]%elem_of_cons;
        [done|by eapply trim_plan_keeps_series].
    + intros pre ids monitored post E.
      exists episodes, (Sonarr.episodes_to_keep episodes n), unload.
      do 2 (split; [done|]).
      destruct pre as [|g pre]; simpl in E; [discriminate|].
      injection E as <- E.
      destruct (trim_plan_split _ _ _ _ _ _ E)
        as [[[= -> ->] ->]|[[[=] _]|[[=] _]]].
      by rewrite unmonitor_episode_ids_monitored.
    + intros pre ids post E.
      exists episodes, (Sonarr.episodes_to_keep episodes n), unload.
      do 2 (split; [done|]).
      destruct pre as [|g pre]; simpl in E; [discriminate|].
      injection E as <- E.
      destruct (trim_plan_split _ _ _ _ _ _ E)
        as [[[=] _]|[([= ->] & -> & Hpost)|[[=] _]]].
      split; [apply delete_episode_file_ids_files|].
      split; [by rewrite unmonitor_episode_ids_monitored|].
      intros ids' monitored Hin.
      destruct Hpost as [-> | ->]; [by apply elem_of_nil in Hin|].
      apply list_elem_of_singleton in Hin. discriminate.
  - rewrite handle_continuing_series_unfetched by done. simpl.
    eexists [_]. split; [done|].
    split; [intros i [?|?%elem_of_nil]%elem_of_cons; done|].
    split; intros pre; intros; destruct pre as [|? [|? pre]]; discriminate.
Qed.

(** One file holds both episodes of a series and the retain count is 1:
    the first episode is inside the retain window, and the live trim
    submits its file, which the second episode shares. *)
Lemma retained_episode_file_is_submitted :
  let new :=
    w_effects (Sonarr.process_series Examples.sonarr_double Examples.sonarr_cfg
                 [7] false 0 Examples.double_show Examples.double_start).2 in
  new = [Request (Sonarr.GetEpisode (Some 4));
         Request (Sonarr.PutEpisodeMonitor [Some 102] false);
         Request (Sonarr.DeleteEpisodeFileBulk [Some 7]);
         Request (Sonarr.PutSeries Examples.double_show)] ∧
  retain_window Examples.double_episodes 1
    [Examples.double_first] [Examples.double_second] ∧
  Sonarr.episodeFileId Examples.double_first = Some 7 ∧
  ¬ spares_retained_files Examples.sonarr_double Examples.sonarr_cfg
      Examples.double_show Examples.double_start new.
Proof.
  intros new.
  assert (Hnew : new = [Request (Sonarr.GetEpisode (Some 4));
                        Request (Sonarr.PutEpisodeMonitor [Some 102] false);
                        Request (Sonarr.DeleteEpisodeFileBulk [Some 7]);
                        Request (Sonarr.PutSeries Examples.double_show)])
    by reflexivity.
  assert (Hwin : retain_window Examples.double_episodes 1
                   [Examples.double_first] [Examples.double_second]).
  { split; [done|]. split; [|split; [reflexivity|intros H; lia]].
    simpl. apply SSorted_cons; [repeat constructor|].
    constructor; [|constructor].
    unfold Sonarr.episode_le, key_le. simpl. lia. }
  split; [exact Hnew|]. split; [exact Hwin|]. split; [reflexivity|].
  intros Hspare.
  apply (Hspare [Request (Sonarr.GetEpisode (Some 4));
                 Request (Sonarr.PutEpisodeMonitor [Some 102] false)]
           [Some 7] [Request (Sonarr.PutSeries Examples.double_show)]
           Examples.double_episodes
           [Examples.double_first] [Examples.double_second]
           Hnew eq_refl Hwin Examples.double_first);
    [by left|reflexivity|by left].
Qed.

(** ** Retrying *)

Lemma count_app {A} (p : A → bool) l1 l2 :
  count p (l1 ++ l2) = (count p l1 + count p l2)%nat.
Proof. unfold count. by rewrite filter_app, length_app. Qed.

Lemma count_none {A} (p : A → bool) l :
  Forall (λ x, p x = false) l → count p l = 0%nat.
Proof.
  unfold count. induction 1 as [|x l Hx Hl IH]; [done|].
  rewrite filter_cons, decide_False by congruence. done.
Qed.

Lemma request_then_effects {call line A B} (P : effect call → Prop) c
    (answer : list (effect call) → option A) (k : A → @M call line B) w :
  (∀ a, emits P (k a)) →
  ∃ rest, w_effects (bind (request c answer) k w).2
          = w_effects w ++ Request c :: rest ∧ Forall P rest.
Proof.
  intros Hk. run_monad. destruct (answer (w_effects w)) as [a|]; simpl.
  - destruct (Hk a (performed (Request c) w)) as (rest & E & F).
    exists rest. rewrite E. simpl. by rewrite <- (assoc_L (++)).
  - by exists [].
Qed.

Lemma radarr_once_effects svc cfg dry w :
  ∃ rest,
    w_effects (Radarr.get_and_delete_media_once svc cfg dry w).2
    = w_effects w ++ Request Radarr.GetMovie :: rest ∧
    Forall (λ f, is_movie_listing f = false ∧ is_sleep f = false) rest.
Proof.
  apply request_then_effects. intros media.
  apply emits_bind.
  { apply emits_bind; [by apply emits_request|]. intros; apply emits_ret. }
  intros ex. apply emits_bind; [apply emits_dict_len|]. intros n.
  apply emits_bind.
  { apply emits_for_each. intros acc m. by apply emits_process_movie. }
  intros acc. apply emits_bind; [apply emits_dict_len|]. intros k.
  apply emits_bind; [|intros; apply emits_dict_get].
  destruct dry; apply emits_logger.
Qed.

Lemma sonarr_run_effects svc cfg dry w :
  ∃ rest,
    w_effects (Sonarr.get_and_delete_media svc cfg dry w).2
    = w_effects w ++ Request Sonarr.GetSeries :: rest ∧
    Forall (λ f, is_series_listing f = false ∧ is_sleep f = false) rest.
Proof.
  apply request_then_effects. intros media.
  apply emits_bind.
  { apply emits_bind; [by apply emits_request|]. intros; apply emits_ret. }
  intros ex. apply emits_bind.
  { apply emits_for_each. intros t s. apply emits_process_series; [done|].
    intros _ c Hc1 Hc2. by destruct c. }
  intros total. apply emits_bind; [|intros; apply emits_dict_get].
  destruct dry; [apply emits_logger|].
  destruct (0 <? total); [apply emits_logger|apply emits_ret].
Qed.

Lemma count_cons {A} (p : A → bool) x l :
  count p (x :: l) = if p x then S (count p l) else count p l.
Proof.
  unfold count. rewrite filter_cons.
  destruct (p x); [by rewrite decide_True|by rewrite decide_False].
Qed.

Lemma radarr_retry_unfolded svc cfg dry w :
  Radarr.get_and_delete_media svc cfg dry w =
  match Radarr.get_and_delete_media_once svc cfg dry w with
  | (Ret d, w1) => (Ret d, w1)
  | (Raise _, w1) =>
      match Radarr.get_and_delete_media_once svc cfg dry
              (performed (Sleep 5) w1) with
      | (Ret d, w2) => (Ret d, w2)
      | (Raise _, w2) =>
          Radarr.get_and_delete_media_once svc cfg dry (performed (Sleep 5) w2)
      end
  end.
Proof.
  unfold Radarr.get_and_delete_media, retry. simpl.
  unfold try_except, bind, perform, raise.
  destruct (Radarr.get_and_delete_media_once svc cfg dry w) as [[d|e] w1];
    [done|].
  destruct (Radarr.get_and_delete_media_once svc cfg dry _) as [[d|e2] w2];
    [done|].
  by destruct (Radarr.get_and_delete_media_once svc cfg dry _) as [[d|e3] w3].
Qed.

Ltac count_effects :=
  repeat (rewrite ?count_app, ?count_cons; simpl);
  repeat match goal with
         | H : Forall (λ f, ?p f = false ∧ ?q f = false) ?l |- _ =>
             let Hp := fresh in let Hq := fresh in
             assert (Hp : count p l = 0%nat)
               by (apply count_none; eapply Forall_impl; [exact H|];
                   by intros ? [? ?]);
             assert (Hq : count q l = 0%nat)
               by (apply count_none; eapply Forall_impl; [exact H|];
                   by intros ? [? ?]);
             rewrite ?Hp, ?Hq; clear H
         end.

Lemma radarr_retry_count svc cfg dry w :
  let r := Radarr.get_and_delete_media svc cfg dry w in
  ∃ new,
    w_effects r.2 = w_effects w ++ new ∧
    (1 ≤ count is_movie_listing new ≤ 3)%nat ∧
    count is_movie_listing new = S (count is_sleep new) ∧
    Forall (λ f, is_sleep f = true → f = Sleep 5) new ∧
    (∀ e, r.1 = Raise e → count is_movie_listing new = 3%nat).
Proof.
  intros r. subst r. rewrite radarr_retry_unfolded.
  assert (Hquiet : ∀ l : list (effect Radarr.call),
            Forall (λ f, is_movie_listing f = false ∧ is_sleep f = false) l →
            Forall (λ f, is_sleep f = true → f = Sleep 5) l).
  { intros l Hl. eapply Forall_impl; [exact Hl|].
    intros f [_ Hf] Hs. congruence. }
  destruct (radarr_once_effects svc cfg dry w) as (r1 & E1 & F1).
  destruct (Radarr.get_and_delete_media_once svc cfg dry w) as [[d|e1] w1];
    simpl in *.
  { exists (Request Radarr.GetMovie :: r1). split; [done|].
    pose proof (Hquiet _ F1). count_effects.
    repeat split; try lia; [by constructor|done]. }
  destruct (radarr_once_effects svc cfg dry (performed (Sleep 5) w1))
    as (r2 & E2 & F2).
  destruct (Radarr.get_and_delete_media_once svc cfg dry _) as [[d|e2] w2];
    simpl in *.
  { exists (Request Radarr.GetMovie :: r1 ++ Sleep 5 :: Request Radarr.GetMovie :: r2).
    split.
    { rewrite E2, E1, <- !(assoc_L (++)). done. }
    pose proof (Hquiet _ F1). pose proof (Hquiet _ F2). count_effects.
    repeat split; try lia; [|done].
    constructor; [done|]. apply Forall_app. split; [done|].
    constructor; [done|]. by constructor. }
  destruct (radarr_once_effects svc cfg dry (performed (Sleep 5) w2))
    as (r3 & E3 & F3).
  destruct (Radarr.get_and_delete_media_once svc cfg dry _) as [o3 w3];
    simpl in *.
  exists (Request Radarr.GetMovie :: r1 ++ Sleep 5 :: Request Radarr.GetMovie
          :: r2 ++ Sleep 5 :: Request Radarr.GetMovie :: r3).
  split.
  { rewrite E3, E2, E1, <- !(assoc_L (++)). done. }
  pose proof (Hquiet _ F1). pose proof (Hquiet _ F2). pose proof (Hquiet _ F3).
  count_effects.
  repeat split; try lia.
  constructor; [done|]. apply Forall_app. split; [done|].
  constructor; [done|]. constructor; [done|]. apply Forall_app. split; [done|].
  constructor; [done|]. by constructor.
Qed.

(** C9.  The Radarr entry point is its batch function under a retry of
    three tries and five seconds: when an execution raises it sleeps
    five seconds and executes the whole function again, up to a third
    execution whose outcome it passes on; so a run holds one to three
    executions, one more than it holds pauses, every pause is of five
    seconds, and a run that raises has executed three times.  The
    Sonarr entry point executes once and never pauses, and when its
    listing request is refused the exception it raises is the outcome
    of the run. *)
Theorem radarr_retries_three_times_sonarr_never :
  (∀ svc cfg dry w,
     Radarr.get_and_delete_media svc cfg dry w =
     match Radarr.get_and_delete_media_once svc cfg dry w with
     | (Ret d, w1) => (Ret d, w1)
     | (Raise _, w1) =>
         match Radarr.get_and_delete_media_once svc cfg dry
                 (performed (Sleep 5) w1) with
         | (Ret d, w2) => (Ret d, w2)
         | (Raise _, w2) =>
             Radarr.get_and_delete_media_once svc cfg dry
               (performed (Sleep 5) w2)
         end
     end) ∧
  (∀ svc cfg dry w,
     let r := Radarr.get_and_delete_media svc cfg dry w in
     ∃ new,
       w_effects r.2 = w_effects w ++ new ∧
       (1 ≤ count is_movie_listing new ≤ 3)%nat ∧
       count is_movie_listing new = S (count is_sleep new) ∧
       Forall (λ f, is_sleep f = true → f = Sleep 5) new ∧
       (∀ e, r.1 = Raise e → count is_movie_listing new = 3%nat)) ∧
  (∀ svc cfg dry w,
     ∃ new,
       w_effects (Sonarr.get_and_delete_media svc cfg dry w).2
       = w_effects w ++ new ∧
       count is_series_listing new = 1%nat ∧
       count is_sleep new = 0%nat) ∧
  (∀ svc cfg dry w,
     Sonarr.get_series svc (w_effects w) = None →
     Sonarr.get_and_delete_media svc cfg dry w
     = (Raise RequestException, performed (Request Sonarr.GetSeries) w)).
Proof.
  split; [|split; [|split]].
  - apply radarr_retry_unfolded.
  - apply radarr_retry_count.
  - intros svc cfg dry w.
    destruct (sonarr_run_effects svc cfg dry w) as (rest & E & F).
    exists (Request Sonarr.GetSeries :: rest). split; [done|].
    count_effects. done.
  - intros svc cfg dry w H. unfold Sonarr.get_and_delete_media, Sonarr.get_media.
    run_monad. by rewrite H.
Qed.

Lemma radarr_retries_three_times_sonarr_never_witness :
  Sonarr.get_series Examples.sonarr_down (w_effects Examples.sonarr_start) = None ∧
  Sonarr.get_and_delete_media Examples.sonarr_down Examples.sonarr_cfg false
    Examples.sonarr_start
  = (Raise RequestException,
     performed (Request Sonarr.GetSeries) Examples.sonarr_start).
Proof.
  split; [reflexivity|].
  exact (proj2 (proj2 (proj2 radarr_retries_three_times_sonarr_never))
           Examples.sonarr_down Examples.sonarr_cfg false Examples.sonarr_start
           eq_refl).
Defined.

(** ** A request that is refused *)

(** C3, on a library where it fails.  Radarr refuses to delete the
    movie "Watched", of 10737418240 bytes, and Sonarr the ended series
    "Ended", of 1000 bytes.  Both live runs catch the refusal, log it,
    go on to the next item and return; but the total either reports
    counts the item that was not deleted: 10737420288 where 2048 bytes
    were freed, and 2800 where 1800 were. *)
Theorem refused_delete_is_caught_but_counted :
  let movie_run :=
    Radarr.get_and_delete_media Examples.radarr_keeps_one Examples.radarr_cfg
      false Examples.radarr_start in
  let series_run :=
    Sonarr.get_and_delete_media Examples.sonarr_keeps_series Examples.sonarr_cfg
      false Examples.sonarr_start in
  (∃ d, movie_run.1 = Ret d) ∧
  w_log movie_run.2 =
    [Radarr.SkippingExempt (Some "Protected"%string);
     Radarr.FailedToDelete (Some "Watched"%string);
     Radarr.DeletedFreed (Some "Unwatched"%string) 2048;
     Radarr.Summary 3 3 2 1 10737420288] ∧
  (∃ d, series_run.1 = Ret d) ∧
  w_log series_run.2 =
    [Sonarr.SkippingExempt (Some "Protected"%string);
     Sonarr.FailedToDelete (Some "Ended"%string);
     Sonarr.Unmonitored (Some "Running"%string);
     Sonarr.TotalFreed 2800].
Proof.
  intros movie_run series_run.
  split; [eexists; subst movie_run; vm_compute; reflexivity|].
  split; [subst movie_run; vm_compute; reflexivity|].
  split; [eexists; subst series_run; vm_compute; reflexivity|].
  subst series_run. vm_compute. reflexivity.
Qed.

(** ** Instances *)



Lemma continuing_series_is_trimmed_not_deleted_witness :
  negb (Sonarr.monitor_continuing_series Examples.sonarr_cfg)
  || get_bool (Sonarr.ended Examples.running_show) = false ∧
  ∃ new,
    w_effects (Sonarr.process_series Examples.sonarr_up Examples.sonarr_cfg [7]
                 false 0 Examples.running_show Examples.sonarr_start).2
    = w_effects Examples.sonarr_start ++ new ∧
    trims_past_window Examples.sonarr_up Examples.sonarr_cfg
      Examples.running_show Examples.sonarr_start new.
Proof.
  split; [reflexivity|].
  exact (continuing_series_is_trimmed_not_deleted Examples.sonarr_up
           Examples.sonarr_cfg [7] false 0 Examples.running_show
           Examples.sonarr_start eq_refl).
Defined.

(** * Further properties of the clients *)

(** ** The seasons of an update *)

Lemma unmonitor_empty_season_settles x :
  Sonarr.unmonitor_empty_season (Sonarr.unmonitor_empty_season x)
  = Sonarr.unmonitor_empty_season x.
Proof.
  unfold Sonarr.unmonitor_empty_season.
  destruct (0 <? get_int (Sonarr.episodeCount x)) eqn:E; [by rewrite E|].
  destruct (get_bool (Sonarr.season_monitored x)) eqn:Em; simpl;
    by rewrite E, ?Em.
Qed.

(** X1.  [__unmonitor_empty_seasons] settles at once and only ever
    switches monitoring off: applied twice it gives what it gives
    applied once; it touches no key of the series but ["seasons"] and
    keeps their number; and a season that reads monitored afterwards is
    the season as it was. *)
Theorem unmonitor_empty_seasons_only_switches_off (s : Sonarr.series) :
  let s' := Sonarr.unmonitor_empty_seasons s in
  Sonarr.unmonitor_empty_seasons s' = s' ∧
  (Sonarr.series_id s', Sonarr.tvdbId s', Sonarr.series_title s',
   Sonarr.series_tags s', Sonarr.ended s', Sonarr.sizeOnDisk s')
  = (Sonarr.series_id s, Sonarr.tvdbId s, Sonarr.series_title s,
     Sonarr.series_tags s, Sonarr.ended s, Sonarr.sizeOnDisk s) ∧
  length (Sonarr.seasons s') = length (Sonarr.seasons s) ∧
  ∀ i before after,
    Sonarr.seasons s !! i = Some before →
    Sonarr.seasons s' !! i = Some after →
    get_bool (Sonarr.season_monitored after) = true →
    after = before.
Proof.
  intros s'. subst s'. split; [|split; [done|split]].
  - unfold Sonarr.unmonitor_empty_seasons. simpl. f_equal.
    rewrite <- list_fmap_compose. apply list_fmap_ext.
    intros i x _. apply unmonitor_empty_season_settles.
  - simpl. by rewrite length_fmap.
  - intros i before after Hb Ha Hm. simpl in Ha.
    rewrite list_lookup_fmap, Hb in Ha. simpl in Ha. injection Ha as <-.
    revert Hm. unfold Sonarr.unmonitor_empty_season.
    destruct (0 <? get_int (Sonarr.episodeCount before)); [done|].
    destruct (get_bool (Sonarr.season_monitored before)) eqn:Em; [|done].
    simpl. discriminate.
Qed.

(** ** The episodes to unload *)

Lemma episodes_to_unload_elem episodes n e :
  e ∈ Sonarr.episodes_to_unload episodes n →
  e ∈ episodes ∧ Sonarr.seasonNumber e ≠ 0.
Proof.
  unfold Sonarr.episodes_to_unload, slice_from. intros H%subseteq_drop.
  unfold Sonarr.sorted_episodes in H. rewrite sorted_perm in H.
  unfold Sonarr.filtered_episodes in H.
  apply list_elem_of_filter in H as [? ?]. done.
Qed.

(** X2.  The ids the loop of lines 118 to 122 gathers to unmonitor are
    the ids of the episodes to unload that read monitored, one per
    episode, in the order of the list: the loop neither reorders nor
    merges them, unlike the file ids. *)
Theorem unmonitor_episode_ids_in_order (unload : list Sonarr.episode) :
  Sonarr.unmonitor_episode_ids unload
  = Sonarr.episode_id
      <$> filter (λ e, get_bool (Sonarr.episode_monitored e) = true) unload.
Proof. unfold Sonarr.unmonitor_episode_ids. by rewrite collect_unmonitor_ids. Qed.

(** X3.  Whatever the retain count, negative ones too, an episode past
    the window is one of the fetched episodes and is not of season 0;
    so every id to unmonitor is the id of a fetched, monitored episode
    outside season 0, and every file id to delete is the file of a
    fetched episode outside season 0 that has one. *)
Theorem specials_are_never_trimmed (episodes : list Sonarr.episode) (n : Z) :
  let unload := Sonarr.episodes_to_unload episodes n in
  (∀ e, e ∈ unload → e ∈ episodes ∧ Sonarr.seasonNumber e ≠ 0) ∧
  (∀ x, x ∈ Sonarr.unmonitor_episode_ids unload →
        ∃ e, e ∈ episodes ∧ Sonarr.seasonNumber e ≠ 0 ∧
             get_bool (Sonarr.episode_monitored e) = true ∧
             Sonarr.episode_id e = x) ∧
  (∀ x, x ∈ Sonarr.delete_episode_file_ids unload →
        ∃ e, e ∈ episodes ∧ Sonarr.seasonNumber e ≠ 0 ∧
             get_bool (Sonarr.hasFile e) = true ∧
             Sonarr.episodeFileId e = x).
Proof.
  intros unload. split; [intros e; apply episodes_to_unload_elem|]. split.
  - intros x Hx. unfold Sonarr.unmonitor_episode_ids in Hx.
    rewrite collect_unmonitor_ids in Hx. simpl in Hx.
    apply list_elem_of_fmap in Hx as (e & -> & He).
    apply list_elem_of_filter in He as [Hm He].
    apply episodes_to_unload_elem in He as [? ?]. by exists e.
  - intros x Hx. apply delete_episode_file_ids_elem in Hx as (e & He & Hf & <-).
    apply episodes_to_unload_elem in He as [? ?]. by exists e.
Qed.

(** X4.  A continuing series all of whose episodes outside season 0
    fit in the retain window has nothing to unload: a live trim of it
    asks for the episodes and nothing else, logs nothing and counts 0
    bytes; a dry one makes the same request and still logs that the
    series would have been unmonitored. *)
Theorem trim_within_window_does_nothing svc cfg s w episodes :
  Sonarr.get_episode svc (w_effects w) (Sonarr.series_id s) = Some episodes →
  Z.of_nat (length (Sonarr.filtered_episodes episodes))
  ≤ Sonarr.episodes_to_load cfg →
  Sonarr.handle_continuing_series svc cfg s false w
  = (Ret 0, performed (Request (Sonarr.GetEpisode (Sonarr.series_id s))) w) ∧
  Sonarr.handle_continuing_series svc cfg s true w
  = (Ret 0, logged (Sonarr.WouldHaveUnmonitored (Sonarr.series_title s))
              (performed (Request (Sonarr.GetEpisode (Sonarr.series_id s))) w)).
Proof.
  intros He Hn. split; [|by apply (handle_continuing_series_dry _ _ _ _ episodes)].
  assert (Sonarr.episodes_to_unload episodes (Sonarr.episodes_to_load cfg) = [])
    as Hu.
  { unfold Sonarr.episodes_to_unload. rewrite slice_from_nonneg by lia.
    apply drop_ge. unfold Sonarr.sorted_episodes.
    rewrite (sorted_perm Sonarr.episode_key). lia. }
  unfold Sonarr.handle_continuing_series, Sonarr.get_media_episodes.
  run_monad. by rewrite He, Hu.
Qed.

Lemma trim_within_window_does_nothing_witness :
  Sonarr.get_episode Examples.sonarr_up (w_effects Examples.sonarr_start)
    (Sonarr.series_id Examples.running_show) = Some Examples.running_episodes ∧
  Z.of_nat (length (Sonarr.filtered_episodes Examples.running_episodes)) ≤ 3 ∧
  (Sonarr.handle_continuing_series Examples.sonarr_up
     (Sonarr.Config true [] 3) Examples.running_show false
     Examples.sonarr_start).1 = Ret 0.
Proof.
  assert (H : Z.of_nat (length (Sonarr.filtered_episodes
                                  Examples.running_episodes)) ≤ 3)
    by (vm_compute; discriminate).
  split; [reflexivity|]. split; [exact H|].
  exact (f_equal fst
           (proj1 (trim_within_window_does_nothing Examples.sonarr_up
                     (Sonarr.Config true [] 3) Examples.running_show
                     Examples.sonarr_start Examples.running_episodes
                     eq_refl H))).
Defined.

(** ** What a run does to the dictionary *)

Section Dictionary.
Context {call line : Type}.
Local Abbreviation M := (@M call line).
Local Abbreviation moves_dict R m := (@moves_dict call line R _ m).
Local Abbreviation yields Q m := (@yields call line _ Q m).

Context (R : relation (gmap string string)) `{!PreOrder R}.

Lemma bind_assoc_run {A B C} (m : M A) (f : A → M B) (g : B → M C) w :
  bind (bind m f) g w = bind m (λ x, bind (f x) g) w.
Proof. unfold bind. by destruct (m w) as [[a|e] w']. Qed.

Lemma moves_dict_ret {A} (a : A) : moves_dict R (ret a).
Proof. intros w. simpl. reflexivity. Qed.

Lemma moves_dict_raise {A} e : moves_dict R (@raise call line A e).
Proof. intros w. simpl. reflexivity. Qed.

Lemma moves_dict_quiet {A} (m : M A) : quiet m → moves_dict R m.
Proof. intros Hq w. destruct (Hq w) as [-> _]. reflexivity. Qed.

Lemma moves_dict_bind {A B} (m : M A) (k : A → M B) :
  moves_dict R m → (∀ a, moves_dict R (k a)) → moves_dict R (bind m k).
Proof.
  intros Hm Hk w. unfold bind. specialize (Hm w).
  destruct (m w) as [[a|e] w']; simpl in *; [|done].
  etrans; [exact Hm|apply Hk].
Qed.

Lemma moves_dict_bind_yields {A B} (Q : A → Prop) (m : M A) (k : A → M B) :
  moves_dict R m → yields Q m → (∀ a, Q a → moves_dict R (k a)) →
  moves_dict R (bind m k).
Proof.
  intros Hm Hy Hk w. unfold bind. specialize (Hm w). specialize (Hy w).
  destruct (m w) as [[a|e] w']; simpl in *; [|done].
  etrans; [exact Hm|]. apply Hk. by apply Hy.
Qed.

Lemma moves_dict_try_except {A} (m : M A) h :
  moves_dict R m → (∀ e, moves_dict R (h e)) → moves_dict R (try_except m h).
Proof.
  intros Hm Hh w. unfold try_except. specialize (Hm w).
  destruct (m w) as [[a|e] w']; simpl in *; [done|].
  etrans; [exact Hm|apply Hh].
Qed.

Lemma moves_dict_for_each {A B} (body : B → A → M B) l :
  (∀ acc x, moves_dict R (body acc x)) → ∀ acc, moves_dict R (for_each body acc l).
Proof.
  intros Hb. induction l as [|x l IH]; intros acc; simpl.
  - apply moves_dict_ret.
  - apply moves_dict_bind; [apply Hb|]. intros; apply IH.
Qed.

Lemma moves_dict_retry_internal {A} (f : M A) n delay :
  moves_dict R f → moves_dict R (retry_internal n delay f).
Proof.
  intros Hf. induction n as [|n IH]; simpl.
  - apply moves_dict_try_except; [done|]. intros; apply moves_dict_raise.
  - apply moves_dict_try_except; [done|]. intros e.
    apply moves_dict_bind; [|intros; apply IH].
    apply moves_dict_quiet, quiet_perform.
Qed.

Lemma quiet_dict_has key : @quiet call line _ (dict_has key).
Proof. by intros w. Qed.

Lemma quiet_dict_len : @quiet call line _ dict_len.
Proof. by intros w. Qed.

Lemma quiet_dict_get : @quiet call line _ dict_get.
Proof. by intros w. Qed.
End Dictionary.

Lemma any_in_nil xs : any_in xs [] = false.
Proof.
  unfold any_in. induction xs as [|x xs IH]; [done|].
  cbn [existsb]. rewrite IH, bool_decide_eq_false_2; [done|apply not_elem_of_nil].
Qed.

Lemma exempt_ids_of_nil tags : exempt_ids_of [] tags = [].
Proof.
  unfold exempt_ids_of. induction tags as [|t tags IH]; [done|].
  rewrite filter_cons, decide_False; [done|apply not_elem_of_nil].
Qed.

Lemma quiet_get_exempt_tag_ids_series svc names :
  quiet (Sonarr.get_exempt_tag_ids svc names).
Proof.
  apply quiet_bind; [apply quiet_request|]. intros; apply quiet_ret.
Qed.

Lemma quiet_get_exempt_tag_ids_movies svc names :
  quiet (Radarr.get_exempt_tag_ids svc names).
Proof.
  apply quiet_bind; [apply quiet_request|]. intros; apply quiet_ret.
Qed.

Lemma skip_exempt_dict ex u s w :
  w_dict (Sonarr.skip_exempt ex u s w).2 =
  if any_in (Sonarr.series_tags s) ex
  then delete (py_str (Sonarr.tvdbId s)) (w_dict w) else w_dict w.
Proof.
  unfold Sonarr.skip_exempt. run_monad.
  destruct (decide (is_Some (w_dict w !! py_str (Sonarr.tvdbId s)))) as [Hp|Hp].
  - rewrite bool_decide_eq_true_2 by done. simpl.
    by destruct (any_in _ _).
  - rewrite bool_decide_eq_false_2 by done. simpl.
    destruct (any_in _ _); [|done].
    symmetry. apply delete_id. by apply eq_None_not_Some.
Qed.

Lemma moves_dict_process_series (R : relation (gmap string string))
    `{!PreOrder R} svc cfg ex dry t s :
  (∀ d, any_in (Sonarr.series_tags s) ex = true →
        R d (delete (py_str (Sonarr.tvdbId s)) d)) →
  moves_dict R (Sonarr.process_series svc cfg ex dry t s).
Proof.
  intros HR w. rewrite process_series_dict.
  destruct (any_in _ _); [by apply HR|reflexivity].
Qed.

Lemma moves_dict_process_movie (R : relation (gmap string string))
    `{!PreOrder R} svc ex dry acc m :
  (∀ d, any_in (Radarr.movie_tags m) ex = true →
        R d (delete (py_str (Radarr.tmdbId m)) d)) →
  moves_dict R (Radarr.process_movie svc ex dry acc m).
Proof.
  intros HR w. rewrite process_movie_dict.
  destruct (any_in _ _); [by apply HR|reflexivity].
Qed.

Lemma moves_dict_skip_exempt (R : relation (gmap string string))
    `{!PreOrder R} ex u s :
  (∀ d, any_in (Sonarr.series_tags s) ex = true →
        R d (delete (py_str (Sonarr.tvdbId s)) d)) →
  moves_dict (call := Sonarr.call) (line := Sonarr.line) R
    (Sonarr.skip_exempt ex u s).
Proof.
  intros HR w. rewrite skip_exempt_dict.
  destruct (any_in _ _); [by apply HR|reflexivity].
Qed.

Section BatchDictionary.
Context (R : relation (gmap string string)) `{!PreOrder R} (Q : list Z → Prop).

Lemma moves_dict_sonarr_batch svc cfg dry :
  yields Q (Sonarr.get_exempt_tag_ids svc (Sonarr.exempt_tag_names cfg)) →
  (∀ ex s d, Q ex → any_in (Sonarr.series_tags s) ex = true →
             R d (delete (py_str (Sonarr.tvdbId s)) d)) →
  moves_dict R (Sonarr.get_and_delete_media svc cfg dry).
Proof.
  intros HQ HR. unfold Sonarr.get_and_delete_media.
  apply (moves_dict_bind R); [apply (moves_dict_quiet R), quiet_request|].
  intros media.
  apply (moves_dict_bind_yields R Q);
    [apply (moves_dict_quiet R), quiet_get_exempt_tag_ids_series|done|].
  intros ex Hex. apply (moves_dict_bind R).
  - apply (moves_dict_for_each R). intros t s.
    apply (moves_dict_process_series R). intros d. by apply HR.
  - intros total. apply (moves_dict_bind R).
    + apply (moves_dict_quiet R).
      destruct dry; [apply quiet_logger|].
      destruct (0 <? total); [apply quiet_logger|apply quiet_ret].
    + intros _. apply (moves_dict_quiet R), quiet_dict_get.
Qed.

Lemma moves_dict_sonarr_episodes_batch svc cfg dry :
  yields Q (Sonarr.get_exempt_tag_ids svc (Sonarr.exempt_tag_names cfg)) →
  (∀ ex s d, Q ex → any_in (Sonarr.series_tags s) ex = true →
             R d (delete (py_str (Sonarr.tvdbId s)) d)) →
  moves_dict R (Sonarr.get_and_delete_media_episodes svc cfg dry).
Proof.
  intros HQ HR. unfold Sonarr.get_and_delete_media_episodes.
  apply (moves_dict_bind R); [apply (moves_dict_quiet R), quiet_request|].
  intros media.
  apply (moves_dict_bind_yields R Q);
    [apply (moves_dict_quiet R), quiet_get_exempt_tag_ids_series|done|].
  intros ex Hex. apply (moves_dict_bind R).
  - apply (moves_dict_for_each R). intros t s.
    apply (moves_dict_skip_exempt R). intros d. by apply HR.
  - intros _. apply (moves_dict_ret R).
Qed.

Lemma moves_dict_radarr_batch svc cfg dry :
  yields Q (Radarr.get_exempt_tag_ids svc (Radarr.exempt_tag_names cfg)) →
  (∀ ex m d, Q ex → any_in (Radarr.movie_tags m) ex = true →
             R d (delete (py_str (Radarr.tmdbId m)) d)) →
  moves_dict R (Radarr.get_and_delete_media svc cfg dry).
Proof.
  intros HQ HR. unfold Radarr.get_and_delete_media, retry.
  apply (moves_dict_retry_internal R).
  unfold Radarr.get_and_delete_media_once.
  apply (moves_dict_bind R); [apply (moves_dict_quiet R), quiet_request|].
  intros media.
  apply (moves_dict_bind_yields R Q);
    [apply (moves_dict_quiet R), quiet_get_exempt_tag_ids_movies|done|].
  intros ex Hex.
  apply (moves_dict_bind R); [apply (moves_dict_quiet R), quiet_dict_len|].
  intros n. apply (moves_dict_bind R).
  - apply (moves_dict_for_each R). intros acc m.
    apply (moves_dict_process_movie R). intros d. by apply HR.
  - intros acc.
    apply (moves_dict_bind R); [apply (moves_dict_quiet R), quiet_dict_len|].
    intros k. apply (moves_dict_bind R).
    + apply (moves_dict_quiet R). destruct dry; apply quiet_logger.
    + intros _. apply (moves_dict_quiet R), quiet_dict_get.
Qed.
End BatchDictionary.

(** X5.  No batch function ever adds a candidate or changes a title:
    whatever the service answers, in a dry or a live run, whether the
    run returns or raises, the candidate mapping it leaves is contained
    in the one it was given. *)
Theorem candidates_only_shrink :
  (∀ svc cfg dry w,
     w_dict (Sonarr.get_and_delete_media svc cfg dry w).2 ⊆ w_dict w) ∧
  (∀ svc cfg dry w,
     w_dict (Sonarr.get_and_delete_media_episodes svc cfg dry w).2 ⊆ w_dict w) ∧
  (∀ svc cfg dry w,
     w_dict (Radarr.get_and_delete_media svc cfg dry w).2 ⊆ w_dict w).
Proof.
  split; [|split]; intros svc cfg dry w.
  - apply (moves_dict_sonarr_batch (flip (⊆)) (λ _, True)); [done|].
    intros ex s d _ _. apply delete_subseteq.
  - apply (moves_dict_sonarr_episodes_batch (flip (⊆)) (λ _, True)); [done|].
    intros ex s d _ _. apply delete_subseteq.
  - apply (moves_dict_radarr_batch (flip (⊆)) (λ _, True)); [done|].
    intros ex m d _ _. apply delete_subseteq.
Qed.

Lemma yields_no_exempt_ids_series svc :
  yields (λ ex, ex = []) (Sonarr.get_exempt_tag_ids svc []).
Proof.
  intros w ex. unfold Sonarr.get_exempt_tag_ids. run_monad.
  destruct (Sonarr.get_tag svc (w_effects w)); simpl; [|done].
  intros [= <-]. apply exempt_ids_of_nil.
Qed.

Lemma yields_no_exempt_ids_movies svc :
  yields (λ ex, ex = []) (Radarr.get_exempt_tag_ids svc []).
Proof.
  intros w ex. unfold Radarr.get_exempt_tag_ids. run_monad.
  destruct (Radarr.get_tag svc (w_effects w)); simpl; [|done].
  intros [= <-]. apply exempt_ids_of_nil.
Qed.

Lemma request_answered {call line A} c (answer : list (effect call) → option A)
    (w : world call line) a :
  answer (w_effects w) = Some a →
  request c answer w = (Ret a, performed (Request c) w).
Proof. intros H. run_monad. by rewrite H. Qed.

Lemma request_refused {call line A} c (answer : list (effect call) → option A)
    (w : world call line) :
  answer (w_effects w) = None →
  request c answer w = (Raise RequestException, performed (Request c) w).
Proof. intros H. run_monad. by rewrite H. Qed.

Lemma sonarr_batch_opens_with_listings svc cfg dry w :
  is_Some (Sonarr.get_series svc (w_effects w)) →
  ∃ rest, w_effects (Sonarr.get_and_delete_media svc cfg dry w).2
          = w_effects w ++ Request Sonarr.GetSeries
                           :: Request Sonarr.GetTag :: rest.
Proof.
  intros [media Hm]. unfold Sonarr.get_and_delete_media, Sonarr.get_media.
  rewrite (bind_ret_run _ _ _ _ _ (request_answered _ _ w media Hm)).
  unfold Sonarr.get_exempt_tag_ids. rewrite bind_assoc_run.
  match goal with
  | |- context [bind (request ?c ?a) ?k ?v] =>
      destruct (request_then_effects (λ _, True) c a k v) as (rest & E & _)
  end.
  { intros tags. apply emits_bind; [apply emits_ret|]. intros ex.
    apply emits_bind.
    { apply emits_for_each. intros t s. by apply emits_process_series. }
    intros total. apply emits_bind; [|intros; apply emits_dict_get].
    destruct dry; [apply emits_logger|].
    destruct (0 <? total); [apply emits_logger|apply emits_ret]. }
  exists rest. rewrite E. simpl. by rewrite <- (assoc_L (++)).
Qed.

Lemma radarr_once_opens_with_listings svc cfg dry w :
  is_Some (Radarr.get_movie svc (w_effects w)) →
  ∃ rest, w_effects (Radarr.get_and_delete_media_once svc cfg dry w).2
          = w_effects w ++ Request Radarr.GetMovie
                           :: Request Radarr.GetTag :: rest.
Proof.
  intros [media Hm]. unfold Radarr.get_and_delete_media_once, Radarr.get_media.
  rewrite (bind_ret_run _ _ _ _ _ (request_answered _ _ w media Hm)).
  unfold Radarr.get_exempt_tag_ids. rewrite bind_assoc_run.
  match goal with
  | |- context [bind (request ?c ?a) ?k ?v] =>
      destruct (request_then_effects (λ _, True) c a k v) as (rest & E & _)
  end.
  { intros tags. apply emits_bind; [apply emits_ret|]. intros ex.
    apply emits_bind; [apply emits_dict_len|]. intros n.
    apply emits_bind.
    { apply emits_for_each. intros acc m. by apply emits_process_movie. }
    intros acc. apply emits_bind; [apply emits_dict_len|]. intros k.
    apply emits_bind; [|intros; apply emits_dict_get].
    destruct dry; apply emits_logger. }
  exists rest. rewrite E. simpl. by rewrite <- (assoc_L (++)).
Qed.

(** X6.  With no exempt tag name configured nothing is exempt: every
    batch function leaves the candidate mapping exactly as it was,
    whatever tags the items carry and whatever the service answers.
    The tag catalogue is requested all the same, straight after the
    listing when the listing is answered. *)
Theorem no_exempt_names_exempt_nothing :
  (∀ svc cfg dry w,
     Sonarr.exempt_tag_names cfg = [] →
     w_dict (Sonarr.get_and_delete_media svc cfg dry w).2 = w_dict w ∧
     w_dict (Sonarr.get_and_delete_media_episodes svc cfg dry w).2 = w_dict w ∧
     (is_Some (Sonarr.get_series svc (w_effects w)) →
      ∃ rest, w_effects (Sonarr.get_and_delete_media svc cfg dry w).2
              = w_effects w ++ Request Sonarr.GetSeries
                               :: Request Sonarr.GetTag :: rest)) ∧
  (∀ svc cfg dry w,
     Radarr.exempt_tag_names cfg = [] →
     w_dict (Radarr.get_and_delete_media svc cfg dry w).2 = w_dict w ∧
     (is_Some (Radarr.get_movie svc (w_effects w)) →
      ∃ rest, w_effects (Radarr.get_and_delete_media_once svc cfg dry w).2
              = w_effects w ++ Request Radarr.GetMovie
                               :: Request Radarr.GetTag :: rest)).
Proof.
  split.
  - intros svc cfg dry w Hn. split; [|split].
    + symmetry. apply (moves_dict_sonarr_batch eq (λ ex, ex = [])).
      * rewrite Hn. apply yields_no_exempt_ids_series.
      * intros ex s d -> Hex. by rewrite any_in_nil in Hex.
    + symmetry. apply (moves_dict_sonarr_episodes_batch eq (λ ex, ex = [])).
      * rewrite Hn. apply yields_no_exempt_ids_series.
      * intros ex s d -> Hex. by rewrite any_in_nil in Hex.
    + apply sonarr_batch_opens_with_listings.
  - intros svc cfg dry w Hn. split.
    + symmetry. apply (moves_dict_radarr_batch eq (λ ex, ex = [])).
      * rewrite Hn. apply yields_no_exempt_ids_movies.
      * intros ex m d -> Hex. by rewrite any_in_nil in Hex.
    + apply radarr_once_opens_with_listings.
Qed.

Lemma no_exempt_names_exempt_nothing_witness :
  Sonarr.exempt_tag_names (Sonarr.Config true [] 1) = [] ∧
  Radarr.exempt_tag_names (Radarr.Config []) = [] ∧
  w_dict (Sonarr.get_and_delete_media Examples.sonarr_up
            (Sonarr.Config true [] 1) false Examples.sonarr_start).2
  = w_dict Examples.sonarr_start ∧
  w_dict (Radarr.get_and_delete_media Examples.radarr_up
            (Radarr.Config []) false Examples.radarr_start).2
  = w_dict Examples.radarr_start.
Proof.
  split; [reflexivity|]. split; [reflexivity|]. split.
  - exact (proj1 (proj1 no_exempt_names_exempt_nothing Examples.sonarr_up
                    (Sonarr.Config true [] 1) false Examples.sonarr_start
                    eq_refl)).
  - exact (proj1 (proj2 no_exempt_names_exempt_nothing Examples.radarr_up
                    (Radarr.Config []) false Examples.radarr_start eq_refl)).
Defined.

(** ** The batch that only skips *)

Lemma skip_exempt_run ex u s w :
  Sonarr.skip_exempt ex u s w =
  (Ret tt,
   if bool_decide (is_Some (w_dict w !! py_str (Sonarr.tvdbId s)))
      && any_in (Sonarr.series_tags s) ex
   then logged (Sonarr.SkippingExempt (Sonarr.series_title s))
               (popped (py_str (Sonarr.tvdbId s)) w)
   else w).
Proof.
  unfold Sonarr.skip_exempt. run_monad.
  destruct (bool_decide _); simpl; [|done].
  by destruct (any_in _ _).
Qed.

Lemma for_each_skip_exempt ex media w :
  ∃ v, for_each (Sonarr.skip_exempt ex) tt media w = (Ret tt, v) ∧
       w_effects v = w_effects w ∧ w_path v = w_path w ∧
       w_dict v = without (exempt_series_keys ex media) (w_dict w) ∧
       ∃ new, w_log v = w_log w ++ new ∧
              Forall (λ l, ∃ title, l = Sonarr.SkippingExempt title) new.
Proof.
  revert w. induction media as [|s media IH]; intros w; simpl.
  - exists w. rewrite without_nil. repeat split; try done.
    exists []. by rewrite app_nil_r.
  - unfold bind. rewrite skip_exempt_run.
    match goal with
    | |- context [for_each _ tt media ?x] => set (w1 := x)
    end.
    destruct (IH w1) as (v & -> & He & Hp & Hd & new & Hl & Hf).
    exists v. split; [done|].
    assert (w_effects w1 = w_effects w ∧ w_path w1 = w_path w ∧
            w_dict w1 = (if any_in (Sonarr.series_tags s) ex
                         then delete (py_str (Sonarr.tvdbId s)) (w_dict w)
                         else w_dict w) ∧
            ∃ new1, w_log w1 = w_log w ++ new1 ∧
                    Forall (λ l, ∃ title, l = Sonarr.SkippingExempt title) new1)
      as (He1 & Hp1 & Hd1 & new1 & Hl1 & Hf1).
    { subst w1.
      destruct (decide (is_Some (w_dict w !! py_str (Sonarr.tvdbId s))))
        as [Hs|Hs].
      - rewrite bool_decide_eq_true_2 by done. simpl.
        destruct (any_in _ _); simpl; repeat split; try done.
        + eexists [_]. split; [done|]. constructor; [by eexists|constructor].
        + exists []. by rewrite app_nil_r.
      - rewrite bool_decide_eq_false_2 by done. simpl.
        repeat split; try done.
        + destruct (any_in _ _); [|done].
          symmetry. apply delete_id. by apply eq_None_not_Some.
        + exists []. by rewrite app_nil_r. }
    split; [congruence|]. split; [congruence|]. split.
    + rewrite Hd, Hd1. unfold exempt_series_keys. rewrite filter_cons.
      destruct (any_in (Sonarr.series_tags s) ex) eqn:E.
      * rewrite decide_True by done. simpl. by rewrite without_cons.
      * by rewrite decide_False by done.
    + exists (new1 ++ new). rewrite Hl, Hl1, (assoc_L (++)).
      split; [done|]. by apply Forall_app.
Qed.

(** X7.  [get_and_delete_media_episodes] deletes nothing, whatever
    [dry_run] is: it makes the listing request and, when that is
    answered, the tag request, and no other.  When both are answered it
    returns, having removed from the candidate mapping the keys of the
    listed series that carry an exempt tag, and logged nothing but its
    skips. *)
Theorem episodes_batch_only_skips_exempt :
  (∀ svc cfg dry w,
     let r := Sonarr.get_and_delete_media_episodes svc cfg dry w in
     w_effects r.2 = w_effects w ++ [Request Sonarr.GetSeries] ∨
     w_effects r.2 = w_effects w ++ [Request Sonarr.GetSeries;
                                     Request Sonarr.GetTag]) ∧
  (∀ svc cfg dry w media tags,
     Sonarr.get_series svc (w_effects w) = Some media →
     Sonarr.get_tag svc (w_effects w ++ [Request Sonarr.GetSeries]) = Some tags →
     let r := Sonarr.get_and_delete_media_episodes svc cfg dry w in
     r.1 = Ret tt ∧
     w_effects r.2 = w_effects w ++ [Request Sonarr.GetSeries;
                                     Request Sonarr.GetTag] ∧
     w_dict r.2
     = without (exempt_series_keys
                  (exempt_ids_of (Sonarr.exempt_tag_names cfg) tags) media)
               (w_dict w) ∧
     ∃ new, w_log r.2 = w_log w ++ new ∧
            Forall (λ l, ∃ title, l = Sonarr.SkippingExempt title) new).
Proof.
  assert (Hrun : ∀ svc cfg dry w media tags,
     Sonarr.get_series svc (w_effects w) = Some media →
     Sonarr.get_tag svc (w_effects w ++ [Request Sonarr.GetSeries]) = Some tags →
     let r := Sonarr.get_and_delete_media_episodes svc cfg dry w in
     r.1 = Ret tt ∧
     w_effects r.2 = w_effects w ++ [Request Sonarr.GetSeries;
                                     Request Sonarr.GetTag] ∧
     w_dict r.2
     = without (exempt_series_keys
                  (exempt_ids_of (Sonarr.exempt_tag_names cfg) tags) media)
               (w_dict w) ∧
     ∃ new, w_log r.2 = w_log w ++ new ∧
            Forall (λ l, ∃ title, l = Sonarr.SkippingExempt title) new).
  { intros svc cfg dry w media tags Hm Ht r. subst r.
    unfold Sonarr.get_and_delete_media_episodes, Sonarr.get_media,
      Sonarr.get_exempt_tag_ids.
    rewrite (bind_ret_run _ _ _ _ _ (request_answered _ _ w media Hm)).
    rewrite bind_assoc_run.
    rewrite (bind_ret_run _ _ _ _ _
               (request_answered _ _ (performed (Request Sonarr.GetSeries) w)
                  tags Ht)).
    unfold bind, ret. simpl.
    destruct (for_each_skip_exempt
                (exempt_ids_of (Sonarr.exempt_tag_names cfg) tags) media
                (performed (Request Sonarr.GetTag)
                   (performed (Request Sonarr.GetSeries) w)))
      as (v & Hv & He & Hp & Hd & Hl).
    rewrite Hv. simpl in *. rewrite He, <- (assoc_L (++)). done. }
  split; [|exact Hrun].
  intros svc cfg dry w r.
  destruct (Sonarr.get_series svc (w_effects w)) as [media|] eqn:Hm.
  - destruct (Sonarr.get_tag svc (w_effects w ++ [Request Sonarr.GetSeries]))
      as [tags|] eqn:Ht.
    + right. by apply (Hrun svc cfg dry w media tags).
    + right. subst r.
      unfold Sonarr.get_and_delete_media_episodes, Sonarr.get_media,
        Sonarr.get_exempt_tag_ids.
      rewrite (bind_ret_run _ _ _ _ _ (request_answered _ _ w media Hm)).
      rewrite bind_assoc_run.
      rewrite (bind_raise_run _ _ _ _ _
                 (request_refused _ _ (performed (Request Sonarr.GetSeries) w)
                    Ht)).
      simpl. by rewrite <- (assoc_L (++)).
  - left. subst r. unfold Sonarr.get_and_delete_media_episodes, Sonarr.get_media.
    by rewrite (bind_raise_run _ _ _ _ _ (request_refused _ _ w Hm)).
Qed.

Lemma episodes_batch_only_skips_exempt_witness :
  Sonarr.get_series Examples.sonarr_readonly (w_effects Examples.sonarr_start)
  = Some Examples.shows ∧
  Sonarr.get_tag Examples.sonarr_readonly
    (w_effects Examples.sonarr_start ++ [Request Sonarr.GetSeries])
  = Some [Examples.keep] ∧
  (Sonarr.get_and_delete_media_episodes Examples.sonarr_readonly
     Examples.sonarr_cfg false Examples.sonarr_start).1 = Ret tt.
Proof.
  split; [reflexivity|]. split; [reflexivity|].
  exact (proj1 (proj2 episodes_batch_only_skips_exempt
                  Examples.sonarr_readonly Examples.sonarr_cfg false
                  Examples.sonarr_start Examples.shows [Examples.keep]
                  eq_refl eq_refl)).
Defined.

(** ** The counts of the Radarr summary *)

Lemma for_each_invariant {call line A B} (I : B → world call line → Prop)
    (body : B → A → M B) l :
  (∀ acc x w acc', I acc w → (body acc x w).1 = Ret acc' →
                   I acc' (body acc x w).2) →
  ∀ acc w acc', I acc w → (for_each body acc l w).1 = Ret acc' →
                I acc' (for_each body acc l w).2.
Proof.
  intros Hb. induction l as [|x l IH]; intros acc w acc' HI; simpl.
  - by intros [= <-].
  - unfold bind. specialize (Hb acc x w).
    destruct (body acc x w) as [[acc1|e] w1]; simpl in *; [|done].
    apply IH. by apply Hb.
Qed.

Lemma process_movie_counts svc ex dry acc m w acc' :
  (Radarr.process_movie svc ex dry acc m w).1 = Ret acc' →
  (size (w_dict (Radarr.process_movie svc ex dry acc m w).2) + acc'.1
   = size (w_dict w) + acc.1)%nat.
Proof.
  movie_cases ex m w; simpl.
  - intros [= <-]. simpl. rewrite map_size_delete_Some by done.
    pose proof (map_size_ne_0_lookup_2 _ _ Hp). lia.
  - destruct dry; [rewrite process_movie_dry by done|
                   rewrite process_movie_live by done]; by intros [= <-].
  - by intros [= <-].
  - by intros [= <-].
Qed.

(** X8.  The counts in the summary line of a Radarr run add up.  When
    the listings are answered, the last line the run logs is a summary
    whose movie count is the length of the listing, whose eligible
    count is the size of the mapping it was given, whose third count
    is the size of the mapping it leaves, and whose exempt count is the
    difference of the two: every key removed was counted as exempt. *)
Theorem radarr_summary_counts_add_up svc cfg dry w media tags :
  Radarr.get_movie svc (w_effects w) = Some media →
  Radarr.get_tag svc (w_effects w ++ [Request Radarr.GetMovie]) = Some tags →
  let r := Radarr.get_and_delete_media svc cfg dry w in
  ∃ exempt total,
    last (w_log r.2)
    = Some ((if dry then Radarr.DryRunSummary else Radarr.Summary)
              (length media) (size (w_dict w)) (size (w_dict r.2)) exempt total) ∧
    (size (w_dict r.2) + exempt = size (w_dict w))%nat.
Proof.
  intros Hm Ht r.
  destruct (radarr_get_and_delete_media_returned svc cfg dry w media tags Hm Ht)
    as (Hr & _ & _).
  subst r. rewrite Hr.
  rewrite (get_and_delete_media_once_run _ _ _ _ _ _ Hm Ht).
  set (ex := exempt_ids_of _ _). set (w0 := performed _ _).
  destruct (returns_for_each (Radarr.process_movie svc ex dry) media
              (λ acc m, returns_process_movie svc ex dry acc m) (O, 0) w0)
    as [acc E].
  pose proof (for_each_invariant
                (λ a v, (size (w_dict v) + a.1 = size (w_dict w))%nat)
                (Radarr.process_movie svc ex dry) media) as Hinv.
  specialize (Hinv (λ a x v a' HI Hret,
                      eq_trans (process_movie_counts svc ex dry a x v a' Hret) HI)
                   (O, 0) w0 acc (Nat.add_0_r _) E).
  unfold bind.
  destruct (for_each _ (O, 0) media w0) as [o w1]; simpl in *; subst o.
  exists acc.1, acc.2. run_monad.
  destruct dry; simpl; by rewrite last_snoc.
Qed.

Lemma radarr_summary_counts_add_up_witness :
  Radarr.get_movie Examples.radarr_keeps_one (w_effects Examples.radarr_start)
  = Some Examples.movies ∧
  Radarr.get_tag Examples.radarr_keeps_one
    (w_effects Examples.radarr_start ++ [Request Radarr.GetMovie])
  = Some [Examples.keep] ∧
  ∃ exempt total,
    last (w_log (Radarr.get_and_delete_media Examples.radarr_keeps_one
                   Examples.radarr_cfg false Examples.radarr_start).2)
    = Some (Radarr.Summary (length Examples.movies)
              (size (w_dict Examples.radarr_start))
              (size (w_dict (Radarr.get_and_delete_media
                               Examples.radarr_keeps_one Examples.radarr_cfg
                               false Examples.radarr_start).2))
              exempt total) ∧
    (size (w_dict (Radarr.get_and_delete_media Examples.radarr_keeps_one
                     Examples.radarr_cfg false Examples.radarr_start).2)
     + exempt = size (w_dict Examples.radarr_start))%nat.
Proof.
  split; [reflexivity|]. split; [reflexivity|].
  exact (radarr_summary_counts_add_up Examples.radarr_keeps_one
           Examples.radarr_cfg false Examples.radarr_start Examples.movies
           [Examples.keep] eq_refl eq_refl).
Defined.

(** ** Tries that fail *)

Lemma radarr_once_raises_clean svc cfg dry w e :
  (Radarr.get_and_delete_media_once svc cfg dry w).1 = Raise e →
  ∃ new,
    (Radarr.get_and_delete_media_once svc cfg dry w).2
    = World (w_dict w) (w_effects w ++ new) (w_log w) (w_path w) ∧
    Forall (λ f, Radarr.is_mutating f = false) new.
Proof.
  intros Hr.
  destruct (Radarr.get_movie svc (w_effects w)) as [media|] eqn:Hm.
  - destruct (Radarr.get_tag svc (w_effects w ++ [Request Radarr.GetMovie]))
      as [tags|] eqn:Ht.
    + destruct (radarr_get_and_delete_media_returned svc cfg dry w media tags
                  Hm Ht) as (Heq & Hret & _).
      rewrite Heq in Hret. congruence.
    + exists [Request Radarr.GetMovie; Request Radarr.GetTag].
      split; [|by repeat constructor].
      unfold Radarr.get_and_delete_media_once, Radarr.get_media,
        Radarr.get_exempt_tag_ids.
      rewrite (bind_ret_run _ _ _ _ _ (request_answered _ _ w media Hm)).
      rewrite bind_assoc_run.
      rewrite (bind_raise_run _ _ _ _ _
                 (request_refused _ _ (performed (Request Radarr.GetMovie) w)
                    Ht)).
      simpl. unfold performed. simpl. by rewrite <- (assoc_L (++)).
  - exists [Request Radarr.GetMovie]. split; [|by repeat constructor].
    unfold Radarr.get_and_delete_media_once, Radarr.get_media.
    by rewrite (bind_raise_run _ _ _ _ _ (request_refused _ _ w Hm)).
Qed.

(** X9.  A try of the Radarr batch that fails has touched nothing: a
    run is one execution of the batch function, the last, started in a
    world that differs from the one the run was given only by listing
    requests and pauses.  So no delete is ever sent twice by the retry,
    and a run that raises leaves mapping and log as they were and has
    sent no delete at all. *)
Theorem radarr_failed_tries_touch_nothing svc cfg dry w :
  let r := Radarr.get_and_delete_media svc cfg dry w in
  (∃ pre,
     Forall (λ f, Radarr.is_mutating f = false) pre ∧
     r = Radarr.get_and_delete_media_once svc cfg dry
           (World (w_dict w) (w_effects w ++ pre) (w_log w) (w_path w))) ∧
  (∀ e, r.1 = Raise e →
        ∃ new, r.2 = World (w_dict w) (w_effects w ++ new) (w_log w) (w_path w) ∧
               Forall (λ f, Radarr.is_mutating f = false) new).
Proof.
  intros r.
  assert (∃ pre,
     Forall (λ f, Radarr.is_mutating f = false) pre ∧
     r = Radarr.get_and_delete_media_once svc cfg dry
           (World (w_dict w) (w_effects w ++ pre) (w_log w) (w_path w)))
    as (pre & Hpre & Hr).
  { subst r. rewrite radarr_retry_unfolded.
    destruct (Radarr.get_and_delete_media_once svc cfg dry w)
      as [[d|e1] w1] eqn:E1.
    { exists []. split; [constructor|]. rewrite app_nil_r.
      destruct w; simpl. by rewrite E1. }
    destruct (radarr_once_raises_clean svc cfg dry w e1) as (n1 & Hw1 & F1);
      [by rewrite E1|].
    rewrite E1 in Hw1. simpl in Hw1. subst w1. unfold performed at 1 2. simpl.
    destruct (Radarr.get_and_delete_media_once svc cfg dry
                (World (w_dict w) ((w_effects w ++ n1) ++ [Sleep 5])
                       (w_log w) (w_path w))) as [[d|e2] w2] eqn:E2.
    { exists (n1 ++ [Sleep 5]). split.
      - apply Forall_app. split; [done|by repeat constructor].
      - by rewrite (assoc_L (++)), E2. }
    destruct (radarr_once_raises_clean svc cfg dry _ e2 (f_equal fst E2))
      as (n2 & Hw2 & F2).
    rewrite E2 in Hw2. simpl in Hw2. subst w2. unfold performed. simpl.
    exists (n1 ++ [Sleep 5] ++ n2 ++ [Sleep 5]). split.
    - repeat (apply Forall_app; split); try done; by repeat constructor.
    - by rewrite !(assoc_L (++)). }
  split; [by exists pre|].
  intros e He. rewrite Hr in He.
  destruct (radarr_once_raises_clean svc cfg dry _ e He) as (n & Hw & F).
  simpl in Hw. exists (pre ++ n). split.
  - by rewrite Hr, Hw, (assoc_L (++)).
  - by apply Forall_app.
Qed.

Lemma radarr_failed_tries_touch_nothing_witness :
  (Radarr.get_and_delete_media Examples.radarr_down Examples.radarr_cfg false
     Examples.radarr_start).1 = Raise RequestException ∧
  ∃ new,
    (Radarr.get_and_delete_media Examples.radarr_down Examples.radarr_cfg false
       Examples.radarr_start).2
    = World (w_dict Examples.radarr_start)
            (w_effects Examples.radarr_start ++ new)
            (w_log Examples.radarr_start) (w_path Examples.radarr_start) ∧
    Forall (λ f, Radarr.is_mutating f = false) new.
Proof.
  split; [reflexivity|].
  exact (proj2 (radarr_failed_tries_touch_nothing Examples.radarr_down
                  Examples.radarr_cfg false Examples.radarr_start)
               RequestException eq_refl).
Defined.

(** ** Requests that change the service *)









(** ** Episodes that cannot be fetched *)

Lemma for_each_app {call line A B} (body : B → A → @M call line B) l1 l2 acc w :
  for_each body acc (l1 ++ l2) w
  = bind (for_each body acc l1) (λ acc', for_each body acc' l2) w.
Proof.
  revert acc w. induction l1 as [|x l1 IH]; intros acc w; simpl; [done|].
  rewrite bind_assoc_run. unfold bind at 1 2.
  destruct (body acc x w) as [[acc1|e] w1]; [apply IH|done].
Qed.

Lemma returns_for_each_in {call line A B} (body : B → A → @M call line B) l :
  (∀ acc x, x ∈ l → returns (body acc x)) → ∀ acc, returns (for_each body acc l).
Proof.
  induction l as [|x l IH]; intros Hb acc w; simpl.
  - by exists acc.
  - unfold bind. destruct (Hb acc x ltac:(by left) w) as [acc' E].
    destruct (body acc x w) as [r w']; simpl in *; subst r.
    apply IH. intros a y Hy. apply Hb. by right.
Qed.

Lemma returns_process_series_fetchable svc cfg ex dry t s :
  (∀ h, is_Some (Sonarr.get_episode svc h (Sonarr.series_id s))) →
  returns (Sonarr.process_series svc cfg ex dry t s).
Proof.
  intros Hav w. series_cases ex s w; simpl; eauto.
  - unfold bind. destruct dry.
    + rewrite handle_ended_series_dry. eauto.
    + rewrite handle_ended_series_live. eauto.
  - unfold bind.
    destruct (Hav (w_effects (visited (py_str (Sonarr.tvdbId s)) Trimmed w)))
      as [eps He].
    destruct dry.
    + rewrite (handle_continuing_series_dry _ _ _ _ eps) by done. eauto.
    + destruct (handle_continuing_series_live_returns svc cfg s _ eps He)
        as [z Hz].
      destruct (Sonarr.handle_continuing_series svc cfg s false _)
        as [r v]; simpl in *; subst r. eauto.
Qed.

(** X11.  A continuing series whose episodes cannot be fetched aborts
    the whole Sonarr batch, dry or live.  When the listings are
    answered and the episodes of every series listed before [s] can be
    fetched, but not those of [s], a candidate without exempt tag that
    continues under the policy, the run raises at [s]: its last request
    is for those episodes, no series listed after [s] is visited, and
    the mapping is left without the exempt keys of the series listed
    before [s]. *)
Theorem unfetched_episodes_abort_the_batch svc cfg dry w pre s post tags :
  let ex := exempt_ids_of (Sonarr.exempt_tag_names cfg) tags in
  let key := py_str (Sonarr.tvdbId s) in
  Sonarr.get_series svc (w_effects w) = Some (pre ++ s :: post) →
  Sonarr.get_tag svc (w_effects w ++ [Request Sonarr.GetSeries]) = Some tags →
  (∀ x h, x ∈ pre → is_Some (Sonarr.get_episode svc h (Sonarr.series_id x))) →
  (∀ h, Sonarr.get_episode svc h (Sonarr.series_id s) = None) →
  is_Some (w_dict w !! key) →
  key ∉ exempt_series_keys ex pre →
  any_in (Sonarr.series_tags s) ex = false →
  is_Some (Sonarr.series_id s) →
  negb (Sonarr.monitor_continuing_series cfg) || get_bool (Sonarr.ended s) = false →
  let r := Sonarr.get_and_delete_media svc cfg dry w in
  r.1 = Raise RequestException ∧
  last (w_effects r.2) = Some (Request (Sonarr.GetEpisode (Sonarr.series_id s))) ∧
  last (w_path r.2) = Some (key, Trimmed) ∧
  w_dict r.2 = without (exempt_series_keys ex pre) (w_dict w).
Proof.
  intros ex key Hm Ht Hpre Hs Hp Hk Hex Hid Hend r. subst r.
  rewrite (get_and_delete_media_run _ _ _ _ _ _ Hm Ht). fold ex.
  set (w0 := performed _ _).
  assert (∃ w1, w_dict w1 = without (exempt_series_keys ex pre) (w_dict w) ∧
                for_each (Sonarr.process_series svc cfg ex dry) 0
                         (pre ++ s :: post) w0
                = (Raise RequestException,
                   performed (Request (Sonarr.GetEpisode (Sonarr.series_id s)))
                     (visited key Trimmed w1))) as (w1 & Hd & Hrun).
  { rewrite for_each_app. unfold bind at 1.
    destruct (returns_for_each_in (Sonarr.process_series svc cfg ex dry) pre)
      with (acc := 0) (w := w0) as [t1 E1].
    { intros t x Hx. apply returns_process_series_fetchable.
      intros h. by apply Hpre. }
    pose proof (for_each_dict (Sonarr.process_series svc cfg ex dry)
                  (λ d s, if any_in (Sonarr.series_tags s) ex
                          then delete (py_str (Sonarr.tvdbId s)) d else d) pre
                  (λ acc s w, process_series_dict svc cfg ex dry acc s w)
                  0 w0 t1 E1) as Hd.
    rewrite foldl_pop_series in Hd.
    destruct (for_each _ 0 pre w0) as [o w1]; simpl in E1, Hd; subst o.
    exists w1. split; [done|].
    simpl for_each. unfold bind at 1.
    assert (is_Some (w_dict w1 !! py_str (Sonarr.tvdbId s))) as Hp1.
    { rewrite Hd, without_lookup. by rewrite decide_False. }
    rewrite process_series_continuing by done. unfold bind at 1.
    by rewrite handle_continuing_series_unfetched by apply Hs. }
  unfold bind. rewrite Hrun. simpl.
  by rewrite !last_snoc.
Qed.

Lemma unfetched_episodes_abort_the_batch_witness :
  let ex := exempt_ids_of (Sonarr.exempt_tag_names Examples.sonarr_cfg)
              [Examples.keep] in
  let key := py_str (Sonarr.tvdbId Examples.running_show) in
  let pre := [Examples.protected_show; Examples.ended_show] in
  Sonarr.get_series Examples.sonarr_hides_episodes
    (w_effects Examples.sonarr_start)
  = Some (pre ++ Examples.running_show :: []) ∧
  Sonarr.get_tag Examples.sonarr_hides_episodes
    (w_effects Examples.sonarr_start ++ [Request Sonarr.GetSeries])
  = Some [Examples.keep] ∧
  (∀ x h, x ∈ pre →
          is_Some (Sonarr.get_episode Examples.sonarr_hides_episodes h
                     (Sonarr.series_id x))) ∧
  (∀ h, Sonarr.get_episode Examples.sonarr_hides_episodes h
          (Sonarr.series_id Examples.running_show) = None) ∧
  is_Some (w_dict Examples.sonarr_start !! key) ∧
  (key ∉ exempt_series_keys ex pre) ∧
  any_in (Sonarr.series_tags Examples.running_show) ex = false ∧
  is_Some (Sonarr.series_id Examples.running_show) ∧
  negb (Sonarr.monitor_continuing_series Examples.sonarr_cfg)
  || get_bool (Sonarr.ended Examples.running_show) = false ∧
  (Sonarr.get_and_delete_media Examples.sonarr_hides_episodes
     Examples.sonarr_cfg false Examples.sonarr_start).1
  = Raise RequestException.
Proof.
  intros ex key pre.
  assert (H1 : ∀ x h, x ∈ pre →
             is_Some (Sonarr.get_episode Examples.sonarr_hides_episodes h
                        (Sonarr.series_id x))).
  { intros x h Hx. subst pre.
    apply elem_of_cons in Hx as [->|Hx]; [by eexists|].
    apply elem_of_cons in Hx as [->|Hx]; [by eexists|].
    by apply elem_of_nil in Hx. }
  assert (H2 : is_Some (w_dict Examples.sonarr_start !! key))
    by (vm_compute; by eexists).
  assert (H3 : key ∉ exempt_series_keys ex pre).
  { intros Hk. vm_compute in Hk.
    apply elem_of_cons in Hk as [Hk|Hk]; [discriminate|].
    by apply elem_of_nil in Hk. }
  assert (H4 : is_Some (Sonarr.series_id Examples.running_show))
    by by eexists.
  split; [reflexivity|]. split; [reflexivity|]. split; [exact H1|].
  split; [reflexivity|]. split; [exact H2|]. split; [exact H3|].
  split; [reflexivity|]. split; [exact H4|]. split; [reflexivity|].
  exact (proj1 (unfetched_episodes_abort_the_batch
                  Examples.sonarr_hides_episodes Examples.sonarr_cfg false
                  Examples.sonarr_start pre Examples.running_show []
                  [Examples.keep] eq_refl eq_refl H1 (λ _, eq_refl) H2 H3
                  eq_refl H4 eq_refl)).
Defined.

(** ** Running again *)

Lemma without_idemp keys d : without keys (without keys d) = without keys d.
Proof.
  apply map_eq. intros k. rewrite !without_lookup. by case_decide.
Qed.

(** X12.  Removing exempt candidates is idempotent across runs.  On a
    service that answers its listings the same way each time, a second
    run, dry or live, started on what a first run left returns the
    mapping the first run returned: a dry run before a live one does
    not change what the live one returns. *)
Theorem second_run_returns_the_same_mapping :
  (∀ svc cfg dry1 dry2 w media tags episodes,
     sonarr_snapshot svc (Some media) (Some tags) episodes →
     (∀ id, is_Some (episodes id)) →
     let r1 := Sonarr.get_and_delete_media svc cfg dry1 w in
     let r2 := Sonarr.get_and_delete_media svc cfg dry2 r1.2 in
     r2.1 = r1.1 ∧ w_dict r2.2 = w_dict r1.2) ∧
  (∀ svc cfg dry1 dry2 w media tags,
     radarr_snapshot svc (Some media) (Some tags) →
     let r1 := Radarr.get_and_delete_media svc cfg dry1 w in
     let r2 := Radarr.get_and_delete_media svc cfg dry2 r1.2 in
     r2.1 = r1.1 ∧ w_dict r2.2 = w_dict r1.2).
Proof.
  split.
  - intros svc cfg dry1 dry2 w media tags episodes Hsnap Hav r1 r2.
    assert (Hm : ∀ h, Sonarr.get_series svc h = Some media) by apply Hsnap.
    assert (Ht : ∀ h, Sonarr.get_tag svc h = Some tags) by apply Hsnap.
    assert (He : ∀ h id, is_Some (Sonarr.get_episode svc h id)).
    { intros h id. rewrite (proj2 (proj2 (Hsnap h))). apply Hav. }
    assert (Hrun : ∀ dry v,
              (Sonarr.get_and_delete_media svc cfg dry v).1
              = Ret (without (exempt_series_keys
                                (exempt_ids_of (Sonarr.exempt_tag_names cfg) tags)
                                media) (w_dict v)) ∧
              w_dict (Sonarr.get_and_delete_media svc cfg dry v).2
              = without (exempt_series_keys
                           (exempt_ids_of (Sonarr.exempt_tag_names cfg) tags)
                           media) (w_dict v)).
    { intros dry v.
      destruct (get_and_delete_media_returns svc cfg dry v) as [d Hd];
        [intros h; by rewrite Hm|intros h; by rewrite Ht|done|].
      destruct (get_and_delete_media_returned svc cfg dry v media tags d
                  (Hm _) (Ht _) Hd) as [-> Hw].
      by split. }
    subst r1 r2.
    destruct (Hrun dry1 w) as [H1 D1].
    destruct (Hrun dry2 (Sonarr.get_and_delete_media svc cfg dry1 w).2)
      as [H2 D2].
    rewrite H2, D2, H1, D1, without_idemp. done.
  - intros svc cfg dry1 dry2 w media tags Hsnap r1 r2.
    assert (Hrun : ∀ dry v,
              (Radarr.get_and_delete_media svc cfg dry v).1
              = Ret (without (exempt_movie_keys
                                (exempt_ids_of (Radarr.exempt_tag_names cfg) tags)
                                media) (w_dict v)) ∧
              w_dict (Radarr.get_and_delete_media svc cfg dry v).2
              = without (exempt_movie_keys
                           (exempt_ids_of (Radarr.exempt_tag_names cfg) tags)
                           media) (w_dict v)).
    { intros dry v.
      destruct (radarr_get_and_delete_media_returned svc cfg dry v media tags)
        as (_ & Hr & Hw); [apply Hsnap..|]. by split. }
    subst r1 r2.
    destruct (Hrun dry1 w) as [H1 D1].
    destruct (Hrun dry2 (Radarr.get_and_delete_media svc cfg dry1 w).2)
      as [H2 D2].
    rewrite H2, D2, H1, D1, without_idemp. done.
Qed.

Lemma second_run_returns_the_same_mapping_witness :
  sonarr_snapshot Examples.sonarr_up (Some Examples.shows)
    (Some [Examples.keep]) (λ _, Some Examples.running_episodes) ∧
  (∀ id : option Z, is_Some (Some Examples.running_episodes)) ∧
  radarr_snapshot Examples.radarr_up (Some Examples.movies)
    (Some [Examples.keep]) ∧
  (Sonarr.get_and_delete_media Examples.sonarr_up Examples.sonarr_cfg false
     (Sonarr.get_and_delete_media Examples.sonarr_up Examples.sonarr_cfg true
        Examples.sonarr_start).2).1
  = (Sonarr.get_and_delete_media Examples.sonarr_up Examples.sonarr_cfg true
       Examples.sonarr_start).1 ∧
  (Radarr.get_and_delete_media Examples.radarr_up Examples.radarr_cfg false
     (Radarr.get_and_delete_media Examples.radarr_up Examples.radarr_cfg true
        Examples.radarr_start).2).1
  = (Radarr.get_and_delete_media Examples.radarr_up Examples.radarr_cfg true
       Examples.radarr_start).1.
Proof.
  assert (Hs : sonarr_snapshot Examples.sonarr_up (Some Examples.shows)
                 (Some [Examples.keep]) (λ _, Some Examples.running_episodes))
    by (intros h; repeat split).
  assert (Ha : ∀ id : option Z, is_Some (Some Examples.running_episodes))
    by (intros id; by eexists).
  assert (Hr : radarr_snapshot Examples.radarr_up (Some Examples.movies)
                 (Some [Examples.keep]))
    by (intros h; repeat split).
  split; [exact Hs|]. split; [exact Ha|]. split; [exact Hr|]. split.
  - exact (proj1 (proj1 second_run_returns_the_same_mapping
                    Examples.sonarr_up Examples.sonarr_cfg true false
                    Examples.sonarr_start _ _ _ Hs Ha)).
  - exact (proj1 (proj2 second_run_returns_the_same_mapping
                    Examples.radarr_up Examples.radarr_cfg true false
                    Examples.radarr_start _ _ Hr)).
Defined.

(** ** A trim that is refused *)

(** X13.  How a live trim ends when the service refuses one of its
    requests.  If the unmonitor request is refused, no file is deleted
    and no update is sent.  If the file delete is refused, no update is
    sent, though the episodes stay unmonitored.  If the update is
    refused, the files are gone all the same.  In each case the refusal
    is caught, the last line logged is the failure, and the trim counts
    0 bytes. *)
Theorem refused_trim_requests svc cfg s w episodes :
  let unload := Sonarr.episodes_to_unload episodes (Sonarr.episodes_to_load cfg) in
  let unmonitor := Sonarr.unmonitor_episode_ids unload in
  let delete := Sonarr.delete_episode_file_ids unload in
  let r := Sonarr.handle_continuing_series svc cfg s false w in
  let fetch := Request (Sonarr.GetEpisode (Sonarr.series_id s)) in
  Sonarr.get_episode svc (w_effects w) (Sonarr.series_id s) = Some episodes →
  (unmonitor ≠ [] →
   (∀ h, Sonarr.put_episode_monitor svc h unmonitor false = false) →
   r = (Ret 0,
        logged (Sonarr.FailedToUnmonitor (Sonarr.series_title s))
          (performed (Request (Sonarr.PutEpisodeMonitor unmonitor false))
             (performed fetch w)))) ∧
  (delete ≠ [] →
   (∀ h, Sonarr.put_episode_monitor svc h unmonitor false = true) →
   (∀ h, Sonarr.delete_episode_file_bulk svc h delete = false) →
   r.1 = Ret 0 ∧
   last (w_log r.2) = Some (Sonarr.FailedToUnmonitor (Sonarr.series_title s)) ∧
   last (w_effects r.2) = Some (Request (Sonarr.DeleteEpisodeFileBulk delete))) ∧
  (delete ≠ [] →
   (∀ h, Sonarr.put_episode_monitor svc h unmonitor false = true) →
   (∀ h, Sonarr.delete_episode_file_bulk svc h delete = true) →
   (∀ h payload, Sonarr.put_series svc h payload = None) →
   r.1 = Ret 0 ∧
   last (w_log r.2) = Some (Sonarr.FailedToUnmonitor (Sonarr.series_title s)) ∧
   w_effects r.2 = w_effects w ++ fetch :: trim_plan s unload).
Proof.
  intros unload unmonitor delete r fetch He. subst r.
  unfold Sonarr.handle_continuing_series, Sonarr.get_media_episodes,
    Sonarr.monitor_media_episodes, Sonarr.delete_media_episodes,
    Sonarr.put_media, trim_plan.
  run_monad. rewrite He. fold unload. fold unmonitor. fold delete.
  split; [|split].
  - intros Hu Hmon. destruct unmonitor as [|u us]; [done|].
    by rewrite Hmon.
  - intros Hd Hmon Hdel.
    destruct unmonitor as [|u us], delete as [|d ds]; try done;
      rewrite ?Hmon; simpl; rewrite ?Hdel; simpl; rewrite ?last_snoc; done.
  - intros Hd Hmon Hdel Hput.
    destruct unmonitor as [|u us], delete as [|d ds]; try done;
      rewrite ?Hmon; simpl; rewrite ?Hdel; simpl; rewrite ?Hput; simpl;
      rewrite ?last_snoc, <- ?(assoc_L (++)); done.
Qed.

Lemma refused_trim_requests_witness :
  let unload := Sonarr.episodes_to_unload Examples.running_episodes 1 in
  let run svc :=
    Sonarr.handle_continuing_series svc Examples.sonarr_cfg
      Examples.running_show false Examples.sonarr_start in
  Sonarr.unmonitor_episode_ids unload = [Some 201; Some 202] ∧
  Sonarr.delete_episode_file_ids unload = [Some 201; Some 202] ∧
  w_effects (run Examples.sonarr_readonly).2
  = [Request (Sonarr.GetEpisode (Some 3));
     Request (Sonarr.PutEpisodeMonitor [Some 201; Some 202] false)] ∧
  (run Examples.sonarr_keeps_files).1 = Ret 0 ∧
  (run Examples.sonarr_refuses_update).1 = Ret 0 ∧
  w_effects (run Examples.sonarr_refuses_update).2
  = Request (Sonarr.GetEpisode (Some 3)) :: trim_plan Examples.running_show unload.
Proof.
  intros unload run.
  split; [reflexivity|]. split; [reflexivity|].
  split; [|split; [|split]].
  - unfold run.
    rewrite (proj1 (refused_trim_requests Examples.sonarr_readonly
                      Examples.sonarr_cfg Examples.running_show
                      Examples.sonarr_start Examples.running_episodes
                      eq_refl) ltac:(discriminate) (λ _, eq_refl)).
    reflexivity.
  - exact (proj1 (proj1 (proj2 (refused_trim_requests
                      Examples.sonarr_keeps_files
                      Examples.sonarr_cfg Examples.running_show
                      Examples.sonarr_start Examples.running_episodes
                      eq_refl)) ltac:(discriminate) (λ _, eq_refl)
                   (λ _, eq_refl))).
  - exact (proj1 (proj2 (proj2 (refused_trim_requests
                      Examples.sonarr_refuses_update
                      Examples.sonarr_cfg Examples.running_show
                      Examples.sonarr_start Examples.running_episodes
                      eq_refl)) ltac:(discriminate) (λ _, eq_refl)
                   (λ _, eq_refl) (λ _ _, eq_refl))).
  - exact (proj2 (proj2 (proj2 (proj2 (refused_trim_requests
                      Examples.sonarr_refuses_update
                      Examples.sonarr_cfg Examples.running_show
                      Examples.sonarr_start Examples.running_episodes
                      eq_refl)) ltac:(discriminate) (λ _, eq_refl)
                   (λ _, eq_refl) (λ _ _, eq_refl)))).
Defined.

(** ** Exempt names the service does not know *)

Lemma exempt_ids_of_ext names names' tags :
  (∀ t, t ∈ tags → tag_label t ∈ names ↔ tag_label t ∈ names') →
  exempt_ids_of names tags = exempt_ids_of names' tags.
Proof.
  unfold exempt_ids_of. intros H. f_equal.
  induction tags as [|t tags IH]; [done|].
  rewrite !filter_cons.
  rewrite IH by (intros u Hu; apply H; by right).
  pose proof (H t ltac:(by left)) as Ht.
  repeat case_decide; tauto.
Qed.

(** X14.  The configured exempt names matter only through the labels
    the service lists.  Two configurations that differ only in their
    exempt names, and whose names pick the same listed tags, give the
    same run: same requests, same log, same result.  So a name that
    matches no tag protects nothing and is nowhere reported, and the
    order and repetition of names do not matter. *)
Theorem exempt_names_count_only_through_listed_tags :
  (∀ svc monitor load names names' dry w,
     (∀ h tags t, Sonarr.get_tag svc h = Some tags → t ∈ tags →
                  tag_label t ∈ names ↔ tag_label t ∈ names') →
     Sonarr.get_and_delete_media svc (Sonarr.Config monitor names load) dry w
     = Sonarr.get_and_delete_media svc (Sonarr.Config monitor names' load) dry w ∧
     Sonarr.get_and_delete_media_episodes svc
       (Sonarr.Config monitor names load) dry w
     = Sonarr.get_and_delete_media_episodes svc
         (Sonarr.Config monitor names' load) dry w) ∧
  (∀ svc names names' dry w,
     (∀ h tags t, Radarr.get_tag svc h = Some tags → t ∈ tags →
                  tag_label t ∈ names ↔ tag_label t ∈ names') →
     Radarr.get_and_delete_media svc (Radarr.Config names) dry w
     = Radarr.get_and_delete_media svc (Radarr.Config names') dry w).
Proof.
  split.
  - intros svc monitor load names names' dry w H. split.
    + unfold Sonarr.get_and_delete_media, Sonarr.get_exempt_tag_ids,
        Sonarr.get_media.
      run_monad.
      destruct (Sonarr.get_series svc (w_effects w)) as [media|]; [|done].
      simpl.
      destruct (Sonarr.get_tag svc _) as [tags|] eqn:Ht; [|done].
      simpl. rewrite (exempt_ids_of_ext names names' tags) by eauto.
      reflexivity.
    + unfold Sonarr.get_and_delete_media_episodes, Sonarr.get_exempt_tag_ids,
        Sonarr.get_media.
      run_monad.
      destruct (Sonarr.get_series svc (w_effects w)) as [media|]; [|done].
      simpl.
      destruct (Sonarr.get_tag svc _) as [tags|] eqn:Ht; [|done].
      simpl. rewrite (exempt_ids_of_ext names names' tags) by eauto.
      reflexivity.
  - intros svc names names' dry w H.
    assert (Honce : ∀ v,
              Radarr.get_and_delete_media_once svc (Radarr.Config names) dry v
              = Radarr.get_and_delete_media_once svc (Radarr.Config names') dry v).
    { intros v.
      unfold Radarr.get_and_delete_media_once, Radarr.get_exempt_tag_ids,
        Radarr.get_media.
      run_monad.
      destruct (Radarr.get_movie svc (w_effects v)) as [media|]; [|done].
      simpl.
      destruct (Radarr.get_tag svc _) as [tags|] eqn:Ht; [|done].
      simpl. rewrite (exempt_ids_of_ext names names' tags) by eauto.
      reflexivity. }
    rewrite !radarr_retry_unfolded, Honce.
    destruct (Radarr.get_and_delete_media_once svc _ dry w) as [[d|e] w1];
      [done|].
    rewrite Honce.
    destruct (Radarr.get_and_delete_media_once svc _ dry _) as [[d|e2] w2];
      [done|].
    apply Honce.
Qed.

Lemma exempt_names_count_only_through_listed_tags_witness :
  Sonarr.get_and_delete_media Examples.sonarr_up
    (Sonarr.Config true ["typo"; "keep"; "keep"]%string 1) false
    Examples.sonarr_start
  = Sonarr.get_and_delete_media Examples.sonarr_up Examples.sonarr_cfg false
      Examples.sonarr_start ∧
  Radarr.get_and_delete_media Examples.radarr_up
    (Radarr.Config ["typo"; "keep"; "keep"]%string) false Examples.radarr_start
  = Radarr.get_and_delete_media Examples.radarr_up Examples.radarr_cfg false
      Examples.radarr_start.
Proof.
  assert (Hnames : ∀ t, t ∈ [Examples.keep] →
            tag_label t ∈ ["typo"; "keep"; "keep"]%string
            ↔ tag_label t ∈ ["keep"]%string).
  { intros t Ht. apply list_elem_of_singleton in Ht. subst t. simpl.
    split; intros _; [by left|right; by left]. }
  split.
  - apply (proj1 exempt_names_count_only_through_listed_tags
             Examples.sonarr_up true 1
             ["typo"; "keep"; "keep"]%string ["keep"]%string false
             Examples.sonarr_start).
    intros h tags t [= <-]. apply Hnames.
  - apply (proj2 exempt_names_count_only_through_listed_tags
             Examples.radarr_up
             ["typo"; "keep"; "keep"]%string ["keep"]%string false
             Examples.radarr_start).
    intros h tags t [= <-]. apply Hnames.
Defined.
